(** * btc-price-runner: the Runner scene of [src/main.ts]

    A shallow embedding of the [RunnerScene] class and a verification of
    its gameplay logic: scoring, the difficulty ramp, jump control, the
    game-over latch, the spawn accumulator and the price poller.

    Numbers.  JavaScript numbers that stay integral in the program
    ([score], [speed], [spawnDelay], colours, candle heights) are [Z].
    Numbers that may be fractional (frame times, accumulators, positions,
    velocities, prices) are rationals [Q], and equality of such quantities
    is stated with [==].  The two accumulators are sums and differences
    the scene computes itself, frame after frame, so their arithmetic is
    that of IEEE-754 doubles: every [+=] and [-=] on them is rounded with
    [fl].  The other arithmetic of the scene is exact in doubles as well
    as in [Q]: halves of whole numbers in [spawnObstacle], and the ground
    clamp, whose operands are the whole number [groundY] and the body
    height 36.  [NaN] is only ever produced by [parseFloat], so it lives
    in the type [number] of parse results.

    The engine.  Phaser owns rendering, physics and input.  Its callbacks
    into the scene are the [event]s of the model; what the engine computes
    on its own (the player's body after a physics step, random draws, the
    outcome of a network request) arrives as the data carried by an
    event. *)

From Stdlib Require Import ZArith QArith Qround Qabs Lqa Lia List Bool.
Import ListNotations.

Local Open Scope Z_scope.

(** ** Config *)

Definition DESIGN_WIDTH : Z := 800.
Definition DESIGN_HEIGHT : Z := 450.

Definition BG_BULL : Z := 0x0f1a12.
Definition BG_BEAR : Z := 0x0f141a.
Definition CANDLE_BULL : Z := 0x2ea043.
Definition CANDLE_BEAR : Z := 0xf85149.

Definition PRICE_INTERVAL_MS : Z := 5000.

Inductive Trend : Set := Up | Down | Flat.

Definition jumpVelocity : Z := -630.
Definition gravityY : Z := 1400.

(** [this.groundY = Math.floor(height * 0.85)], with the game's fixed
    height. *)
Definition groundY : Z := Qfloor (inject_Z DESIGN_HEIGHT * (85 # 100)).

(** ** JavaScript comparisons and [Math.max] on rationals *)

Definition Qlt_bool (a b : Q) : bool := negb (Qle_bool b a).

Definition js_max (a b : Q) : Q := if Qle_bool a b then b else a.

(** ** Double arithmetic *)

(** Every finite double is a whole multiple of 2^-1074. *)
Definition SCALE : Z := 2 ^ 1074.

(** Round to the nearest whole number, ties to even. *)
Definition round_half_even (q : Q) : Z :=
  let f := Qfloor q in
  match (q - inject_Z f ?= 1 # 2)%Q with
  | Lt => f
  | Gt => f + 1
  | Eq => if Z.even f then f else f + 1
  end.

(** The binary exponent, above that of the subnormals, of the grid on
    which the doubles near [x] lie: they are the multiples of
    2^([shift_of x] - 1074). *)
Definition shift_of (x : Q) : Z :=
  Z.max 0 (Z.log2 (Qfloor (Qabs (x * inject_Z SCALE))) - 52).

(** The double nearest to [x], ties to even: the rounding of every
    JavaScript [+] and [-].  The result is in lowest terms.  Overflow to
    [Infinity] is not modelled; it needs a magnitude of 2^1024. *)
Definition fl (x : Q) : Q :=
  let y := (x * inject_Z SCALE)%Q in
  let s := 2 ^ shift_of x in
  Qred (inject_Z (round_half_even (y / inject_Z s) * s) / inject_Z SCALE).

Arguments fl : simpl never.

(** ** Data model *)

(** The part of the player's Arcade body the scene reads or writes:
    [b.y], [b.height], [b.velocity.y], [b.blocked.down],
    [b.touching.down]. *)
Record body : Set := mkBody {
  body_y : Q;
  body_height : Q;
  velocity_y : Q;
  blocked_down : bool;
  touching_down : bool
}.

(** The player: the game object's own [y] and its physics body. *)
Record player_t : Set := mkPlayer {
  player_y : Q;
  player_body : body
}.

(** One candle rectangle of the obstacle group.  [_scored] is the expando
    flag the update loop sets on the game object. *)
Record obstacle : Set := mkObstacle {
  ox : Q;
  oy : Q;
  owidth : Z;
  oheight : Z;
  ocolor : Z;
  allowGravity : bool;
  ovx : Q;
  ovy : Q;
  _scored : bool
}.

(** What [priceText] shows.  The formatted price is locale dependent, so
    the text is kept as the value it was formatted from. *)
Inductive price_display : Set :=
| TextPlaceholder                  (* the initial text, "BTC: ..." *)
| TextPrice (p : Q)                (* "BTC: <price> USDT" *)
| TextFetchError.                  (* "BTC: fetch error" *)

(** The objects [onGameOver] adds to the scene. *)
Inductive overlay_item : Set :=
| GameOverText (final_score : Z)
| RestartPrompt
| RestartBlocker.

(** The mutable fields of [RunnerScene], together with the camera
    background colour and the overlay objects of the scene. *)
Record scene : Type := mkScene {
  player : player_t;
  obstacles : list obstacle;
  score : Z;
  scoreText : Z;
  priceText : price_display;
  background : Z;
  lastPrice : option Q;
  curPrice : option Q;
  priceTrend : Trend;
  priceAcc : Q;
  speed : Z;
  spawnDelay : Z;
  spawnAcc : Q;
  gameOverShown : bool;
  overlay : list overlay_item
}.

(** Field updates. *)

Definition set_player (s : scene) (p : player_t) : scene :=
  mkScene p (obstacles s) (score s) (scoreText s) (priceText s)
    (background s) (lastPrice s) (curPrice s) (priceTrend s) (priceAcc s)
    (speed s) (spawnDelay s) (spawnAcc s) (gameOverShown s) (overlay s).

Definition set_obstacles (s : scene) (l : list obstacle) : scene :=
  mkScene (player s) l (score s) (scoreText s) (priceText s)
    (background s) (lastPrice s) (curPrice s) (priceTrend s) (priceAcc s)
    (speed s) (spawnDelay s) (spawnAcc s) (gameOverShown s) (overlay s).

Definition set_priceText (s : scene) (t : price_display) : scene :=
  mkScene (player s) (obstacles s) (score s) (scoreText s) t
    (background s) (lastPrice s) (curPrice s) (priceTrend s) (priceAcc s)
    (speed s) (spawnDelay s) (spawnAcc s) (gameOverShown s) (overlay s).

Definition set_priceAcc (s : scene) (a : Q) : scene :=
  mkScene (player s) (obstacles s) (score s) (scoreText s) (priceText s)
    (background s) (lastPrice s) (curPrice s) (priceTrend s) a
    (speed s) (spawnDelay s) (spawnAcc s) (gameOverShown s) (overlay s).

Definition set_spawnAcc (s : scene) (a : Q) : scene :=
  mkScene (player s) (obstacles s) (score s) (scoreText s) (priceText s)
    (background s) (lastPrice s) (curPrice s) (priceTrend s) (priceAcc s)
    (speed s) (spawnDelay s) a (gameOverShown s) (overlay s).

Definition set_velocity_y (b : body) (v : Q) : body :=
  mkBody (body_y b) (body_height b) v (blocked_down b) (touching_down b).

Definition set_ovx (o : obstacle) (v : Q) : obstacle :=
  mkObstacle (ox o) (oy o) (owidth o) (oheight o) (ocolor o)
    (allowGravity o) v (ovy o) (_scored o).

(** ** [create] *)

(** The player as [create] builds it: a circle of radius 18 centred at
    [groundY - 18], whose body is its bounding square, at rest. *)
Definition new_player : player_t :=
  mkPlayer (inject_Z (groundY - 18))
    (mkBody (inject_Z (groundY - 18) - 18) 36 0 false false).

(** [create()]: a new player, an empty obstacle group, score 0, fresh UI
    texts, the bearish background and the reset of the runtime variables.
    The price fields [lastPrice], [curPrice] and [priceTrend] are not
    touched: the scene object outlives a restart. *)
Definition create (s : scene) : scene :=
  mkScene new_player [] 0 0 TextPlaceholder BG_BEAR
    (lastPrice s) (curPrice s) (priceTrend s)
    (inject_Z PRICE_INTERVAL_MS)       (* force immediate first fetch *)
    180 1200 0 false [].

(** The scene object after its constructor: the field initialisers of the
    class.  Fields declared with [!] get their value in [create]. *)
Definition constructed : scene :=
  mkScene new_player [] 0 0 TextPlaceholder BG_BEAR
    None None Flat 0 180 1200 0 false [].

(** The first state a session starts in. *)
Definition init : scene := create constructed.

(** ** Price handling *)

(** The result of [parseFloat]. *)
Inductive number : Set :=
| NaN
| Num (q : Q).

(** The value [r.json()] resolves to, as far as the code looks at it:
    [null], on which reading [.price] throws, or any other value, given by
    what [parseFloat] makes of its [price] property. *)
Inductive json_value : Set :=
| JNull
| JHolds (price : number).

(** How one call of [fetchPriceOnce] can end.  [ok] is the response's
    [r.ok]; the code never reads it. *)
Inductive fetch_outcome : Set :=
| FetchRejected                               (* fetch() rejects *)
| BodyNotJson (ok : bool)                     (* r.json() rejects *)
| BodyJson (ok : bool) (j : json_value).

(** The trend detection of lines 126-132. *)
Definition detect_trend (last : option Q) (cur : Q) : Trend :=
  match last with
  | None => Flat
  | Some l =>
      if Qeq_bool cur l then Flat
      else if Qlt_bool l cur then Up
      else Down
  end.

(** The body of [if (!isNaN(p))]. *)
Definition store_price (p : Q) (s : scene) : scene :=
  let last := match curPrice s with
              | Some c => Some c
              | None => lastPrice s
              end in
  let trend := detect_trend last p in
  mkScene (player s) (obstacles s) (score s) (scoreText s)
    (TextPrice p)
    (match trend with Up => BG_BULL | _ => BG_BEAR end)
    last (Some p) trend (priceAcc s)
    (speed s) (spawnDelay s) (spawnAcc s) (gameOverShown s) (overlay s).

(** [fetchPriceOnce], from the point where the request has completed.
    Nothing of the scene is read or written before that point, so the
    completion is one atomic step. *)
Definition fetchPriceOnce (o : fetch_outcome) (s : scene) : scene :=
  match o with
  | FetchRejected => set_priceText s TextFetchError
  | BodyNotJson _ => set_priceText s TextFetchError
  | BodyJson _ JNull => set_priceText s TextFetchError
  | BodyJson _ (JHolds NaN) => s
  | BodyJson _ (JHolds (Num p)) => store_price p s
  end.

(** ** Jump *)

Definition tryJump (s : scene) : scene :=
  if gameOverShown s then s
  else
    let b := player_body (player s) in
    if blocked_down b || touching_down b then
      set_player s
        (mkPlayer (player_y (player s))
           (set_velocity_y b (inject_Z jumpVelocity)))
    else s.

(** ** Game over *)

(** [body?.setVelocity(0)]: both components become 0. *)
Definition freeze (o : obstacle) : obstacle :=
  mkObstacle (ox o) (oy o) (owidth o) (oheight o) (ocolor o)
    (allowGravity o) 0 0 (_scored o).

Definition onGameOver (s : scene) : scene :=
  if gameOverShown s then s
  else
    mkScene (player s) (map freeze (obstacles s)) (score s) (scoreText s)
      (priceText s) (background s) (lastPrice s) (curPrice s)
      (priceTrend s) (priceAcc s) (speed s) (spawnDelay s) (spawnAcc s)
      true
      (overlay s ++ [GameOverText (score s); RestartPrompt; RestartBlocker]).

(** ** Spawning *)

(** The random values one call of [spawnObstacle] consumes: the outcome of
    [Math.random() < 0.5] and the two results of [Phaser.Math.Between]. *)
Record draw : Set := mkDraw {
  coin : bool;
  gapTop_draw : Z;
  gap_draw : Z
}.

(** The two rectangles [spawnObstacle] creates, top candle first, with
    their bodies as lines 214 and 221 leave them. *)
Definition spawn_pair (d : draw) (s : scene) : list obstacle :=
  let spawnX := inject_Z (DESIGN_WIDTH + 24) in
  let bullish := match priceTrend s with
                 | Up => true
                 | Down => false
                 | Flat => coin d
                 end in
  let gapTop := gapTop_draw d in
  let gap := gap_draw d in
  let colour := if bullish then CANDLE_BULL else CANDLE_BEAR in
  let topHeight := Z.max 60 (gapTop - 40) in
  let bottomY := groundY in
  let bottomHeight := Z.max 80 (bottomY - (gapTop + gap)) in
  [ mkObstacle spawnX (inject_Z topHeight / 2) 26 topHeight colour
      false (- inject_Z (speed s)) 0 false;
    mkObstacle spawnX (inject_Z bottomY - inject_Z bottomHeight / 2) 26
      bottomHeight colour false (- inject_Z (speed s)) 0 false ].

(** What adding to the Arcade physics group of line 78 does to a member:
    the group was created without a configuration, and on every member it
    receives it sets its defaults again, among them a velocity of zero
    and [allowGravity = true]. *)
Definition group_defaults (o : obstacle) : obstacle :=
  mkObstacle (ox o) (oy o) (owidth o) (oheight o) (ocolor o) true 0 0
    (_scored o).

(** [this.obstacles.addMultiple([top, bottom])] appends to the group. *)
Definition spawnObstacle (d : draw) (s : scene) : scene :=
  set_obstacles s (obstacles s ++ map group_defaults (spawn_pair d s)).

(** ** The frame update *)

(** Lines 153-158, on the body. *)
Definition clamp_to_ground (b : body) : body :=
  if Qlt_bool (inject_Z groundY) (body_y b + body_height b) then
    mkBody (inject_Z groundY - body_height b) (body_height b)
      (js_max 0 (velocity_y b)) (blocked_down b) (touching_down b)
  else b.

(** Lines 160-166.  The request that is fired here comes back later as a
    fetch-completion event; firing it changes no field. *)
Definition price_tick (delta : Q) (s : scene) : scene :=
  let acc := fl (priceAcc s + delta) in
  if Qle_bool (inject_Z PRICE_INTERVAL_MS) acc then set_priceAcc s 0
  else set_priceAcc s acc.

(** The [while] loop of lines 170-173.  [fuel] bounds the number of
    iterations; [None] means the bound was hit with the loop condition
    still true.  [draws (i)] is the randomness of the [i]-th spawn of the
    frame. *)
Fixpoint spawn_loop (fuel : nat) (i : nat) (draws : nat -> draw)
    (s : scene) : option scene :=
  if Qle_bool (inject_Z (spawnDelay s)) (spawnAcc s) then
    match fuel with
    | O => None
    | S fuel' =>
        spawn_loop fuel' (S i) draws
          (spawnObstacle (draws i)
             (set_spawnAcc s (fl (spawnAcc s - inject_Z (spawnDelay s)))))
    end
  else Some s.

(** Lines 180-186: the scoring event with its difficulty ramp. *)
Definition score_event (s : scene) : scene :=
  mkScene (player s) (obstacles s) (score s + 1) (score s + 1)
    (priceText s) (background s) (lastPrice s) (curPrice s)
    (priceTrend s) (priceAcc s)
    (Z.min (speed s + 8) 420)
    (Z.max (spawnDelay s - 10) 885)
    (spawnAcc s) (gameOverShown s) (overlay s).

(** The callback of [this.obstacles.children.each], run over the children
    in group order.  The result is the children that are left in the
    group and the scene fields after the last callback.  A destroyed
    object leaves the group, so the [_scored = true] written just before
    [destroy()] is not seen again. *)
Fixpoint sweep (objs : list obstacle) (s : scene)
    : list obstacle * scene :=
  match objs with
  | [] => ([], s)
  | obj :: rest =>
      if Qlt_bool (ox obj) (-60) then
        sweep rest (if _scored obj then s else score_event s)
      else
        let '(kept, s') := sweep rest s in
        (set_ovx obj (- inject_Z (speed s)) :: kept, s')
  end.

(** [update] up to the spawn loop: the ground clamp, the price
    accumulator and [spawnAcc += delta]. *)
Definition frame_begin (delta : Q) (s : scene) : scene :=
  let p := player s in
  let s1 := set_player s
              (mkPlayer (player_y p) (clamp_to_ground (player_body p))) in
  let s2 := price_tick delta s1 in
  set_spawnAcc s2 (fl (spawnAcc s2 + delta)).

(** [update] after the spawn loop: the obstacle sweep and the exit
    through the top of the viewport. *)
Definition frame_end (s : scene) : scene :=
  let '(kept, s1) := sweep (obstacles s) s in
  let s2 := set_obstacles s1 kept in
  if Qlt_bool (player_y (player s2)) (-40) then onGameOver s2 else s2.

Definition update (fuel : nat) (delta : Q) (draws : nat -> draw)
    (s : scene) : option scene :=
  if gameOverShown s then Some s
  else option_map frame_end (spawn_loop fuel 0 draws (frame_begin delta s)).

(** ** The engine's side *)

(** One physics step of [dt] milliseconds.  The world's gravity is zero
    (line 256) and obstacles collide with nothing, so they move by their
    velocity whatever their [allowGravity]; the player's
    new position, velocity and contact flags are the engine's business and
    come as [p]. *)
Definition advance (dt : Q) (o : obstacle) : obstacle :=
  mkObstacle (ox o + ovx o * dt / 1000)%Q (oy o + ovy o * dt / 1000)%Q
    (owidth o) (oheight o) (ocolor o) (allowGravity o) (ovx o) (ovy o)
    (_scored o).

Definition physics (dt : Q) (p : player_t) (s : scene) : scene :=
  set_obstacles (set_player s p) (map (advance dt) (obstacles s)).

(** The callbacks the engine makes into the scene. *)
Inductive event : Type :=
| EvUpdate (fuel : nat) (delta : Q) (draws : nat -> draw)
| EvJump                           (* keydown-SPACE or pointerdown *)
| EvFetchDone (o : fetch_outcome)
| EvOverlap                        (* player overlaps an obstacle *)
| EvPhysics (dt : Q) (p : player_t)
| EvRestart.                       (* the one-shot restart listeners *)

Definition is_restart (ev : event) : bool :=
  match ev with EvRestart => true | _ => false end.

(** One callback.  [None]: the event cannot happen in [s] (a negative
    frame time, a restart while its listeners are not installed) or the
    update does not return within its fuel. *)
Definition exec (ev : event) (s : scene) : option scene :=
  match ev with
  | EvUpdate fuel delta draws =>
      if Qle_bool 0 delta then update fuel delta draws s else None
  | EvJump => Some (tryJump s)
  | EvFetchDone o => Some (fetchPriceOnce o s)
  | EvOverlap => Some (onGameOver s)
  | EvPhysics dt p =>
      if Qle_bool 0 dt then Some (physics dt p s) else None
  | EvRestart => if gameOverShown s then Some (create s) else None
  end.

Fixpoint run (evs : list event) (s : scene) : option scene :=
  match evs with
  | [] => Some s
  | ev :: rest =>
      match exec ev s with
      | Some s' => run rest s'
      | None => None
      end
  end.

Inductive reachable : scene -> Prop :=
| reach_init : reachable init
| reach_step : forall ev s s',
    reachable s -> exec ev s = Some s' -> reachable s'.

(** * Properties and sample sessions *)

(** ** Projections *)

(** The session fields an obstacle spawn or an engine step never writes. *)
Definition session_of (s : scene) : Z * Z * Z * bool * list overlay_item :=
  (score s, speed s, spawnDelay s, gameOverShown s, overlay s).

(** The price fields. *)
Definition prices_of (s : scene) : option Q * option Q * Trend :=
  (lastPrice s, curPrice s, priceTrend s).

(** Everything of the session that gameplay writes, obstacles and player
    apart. *)
Definition gameplay_of (s : scene)
    : Z * Z * Z * bool * list overlay_item * Z * Q * Q :=
  (session_of s, scoreText s, spawnAcc s, priceAcc s).

(** ** Scoring and candle pairs *)

(** A child of the group that is past the left threshold. *)
Definition past_threshold (o : obstacle) : bool := Qlt_bool (ox o) (-60).

(** A child the sweep scores: past the threshold and not yet flagged. *)
Definition scores (o : obstacle) : bool :=
  Qlt_bool (ox o) (-60) && negb (_scored o).

Definition count_scoring (objs : list obstacle) : nat :=
  length (filter scores objs).

(** The two candles of one spawn stay in the same column, move at the
    same horizontal velocity, are 26 wide and carry no scored flag. *)
Definition twin (top bottom : obstacle) : Prop :=
  ox bottom = ox top /\ ovx bottom = ovx top /\
  _scored top = false /\ _scored bottom = false /\
  owidth top = 26 /\ owidth bottom = 26.

(** The group is a sequence of such pairs. *)
Fixpoint paired (l : list obstacle) : Prop :=
  match l with
  | [] => True
  | [_] => False
  | top :: bottom :: rest => twin top bottom /\ paired rest
  end.

(** The pairs of the group that are past the left threshold. *)
Fixpoint exited_pairs (l : list obstacle) : nat :=
  match l with
  | top :: _ :: rest =>
      ((if Qlt_bool (ox top) (-60) then 1 else 0) + exited_pairs rest)%nat
  | _ => 0%nat
  end.

(** ** The spawn loop, as specified *)

(** One spawn per full interval: [k] times, take the interval off the
    accumulator and spawn. *)
Fixpoint spawn_times (k i : nat) (draws : nat -> draw) (s : scene)
    : scene :=
  match k with
  | O => s
  | S k' =>
      spawn_times k' (S i) draws
        (spawnObstacle (draws i)
           (set_spawnAcc s (fl (spawnAcc s - inject_Z (spawnDelay s)))))
  end.

(** The number of full intervals [d] contained in [a]. *)
Definition full_intervals (a : Q) (d : Z) : nat :=
  Z.to_nat (Qfloor (a / inject_Z d)).

(** ** The price poller *)

(** The completions the specification files under failure: a network
    error, a response that is not OK, a payload without a numeric price. *)
Definition claimed_failure (o : fetch_outcome) : bool :=
  match o with
  | FetchRejected => true
  | BodyNotJson _ => true
  | BodyJson _ JNull => true
  | BodyJson _ (JHolds NaN) => true
  | BodyJson ok (JHolds (Num _)) => negb ok
  end.

(** The poller fed with a sequence of successfully parsed prices. *)
Definition sample (p : Q) : fetch_outcome := BodyJson true (JHolds (Num p)).

Definition poll (ps : list Q) (s : scene) : scene :=
  fold_left (fun s p => fetchPriceOnce (sample p) s) ps s.

(** Any sequence of completions, and the prices it carries: those of the
    completions that reach [store_price]. *)
Definition completions (os : list fetch_outcome) (s : scene) : scene :=
  fold_left (fun s o => fetchPriceOnce o s) os s.

Definition parsed_price (o : fetch_outcome) : list Q :=
  match o with
  | BodyJson _ (JHolds (Num p)) => [p]
  | _ => []
  end.

Definition parsed_prices (os : list fetch_outcome) : list Q :=
  flat_map parsed_price os.

(** No price without a current price, no trend without two prices. *)
Definition price_inv (s : scene) : Prop :=
  (lastPrice s <> None -> curPrice s <> None) /\
  (priceTrend s <> Flat -> lastPrice s <> None /\ curPrice s <> None).

(** ** Invariants of the session *)

(** Difficulty as a function of the score. *)
Definition ramp_inv (s : scene) : Prop :=
  speed s = Z.min (180 + 8 * score s) 420 /\
  spawnDelay s = Z.max (1200 - 10 * score s) 885.

Definition frozen (o : obstacle) : Prop := ovx o = 0%Q /\ ovy o = 0%Q.

Record scene_inv (s : scene) : Prop := mkInv {
  inv_ramp : ramp_inv s;
  inv_score : 0 <= score s;
  inv_text : scoreText s = score s;
  inv_acc : (0 <= spawnAcc s)%Q;
  inv_pairs : paired (obstacles s);
  inv_overlay :
    overlay s = if gameOverShown s
                then [GameOverText (score s); RestartPrompt; RestartBlocker]
                else [];
  inv_frozen : gameOverShown s = true -> Forall frozen (obstacles s);
  inv_even : Z.even (score s) = true
}.

(** [o'] is [o] brought to rest: no velocity, same place. *)
Definition rests_at (o o' : obstacle) : Prop :=
  ovx o' = 0%Q /\ ovy o' = 0%Q /\ (ox o' == ox o)%Q /\ (oy o' == oy o)%Q.

(** The contact flag the physics system reports for the player. *)
Definition on_ground (s : scene) : bool :=
  blocked_down (player_body (player s)) ||
  touching_down (player_body (player s)).

(** ** Sample sessions *)

(** The scene after the callbacks [evs], from [s] and from [init]. *)
Definition state_from (evs : list event) (s : scene) : scene :=
  match run evs s with
  | Some s' => s'
  | None => s
  end.

Definition state_after (evs : list event) : scene := state_from evs init.

(** The session that has seen [n] scoring events since [create]. *)
Definition after_events (n : nat) : scene := Nat.iter n score_event init.

(** The randomness used in the examples: a bullish coin, gap top 150,
    gap 280. *)
Definition sample_draws : nat -> draw := fun _ => mkDraw true 150 280.

(** One frame of the game loop as the engine runs it: a physics step and
    then the scene's update, both with the same elapsed time.  The engine
    reports the player at rest and no overlap. *)
Definition frame (dt : Q) : list event :=
  [EvPhysics dt new_player; EvUpdate 1 dt sample_draws].

(** Six frames of one second each, then the physics step of the seventh.
    The first pair is spawned in frame 2 at [x = 824] and moves 180 to the
    left per second, four more pairs follow, and the last physics step
    carries the first pair to [x = -76]. *)
Definition first_exit : list event :=
  concat (repeat (frame 1000) 6) ++ [EvPhysics 1000 new_player].

(** The update of the seventh frame. *)
Definition seventh_update : event := EvUpdate 1 1000 sample_draws.

Definition seven_frames : list event := first_exit ++ [seventh_update].

(** Three frames into the session: two pairs are on screen. *)
Definition two_pairs_on_screen : list event := concat (repeat (frame 1000) 3).

(** The player standing on the ground, as the engine reports it. *)
Definition standing_player : player_t :=
  mkPlayer (inject_Z (groundY - 18))
    (mkBody (inject_Z (groundY - 18) - 18) 36 0 true false).

(** What may still arrive after the game is over. *)
Definition late_events : list event :=
  [EvJump; EvPhysics 16 standing_player; EvJump;
   EvUpdate 5 6000 sample_draws; EvOverlap].

(** A player that has sunk 6 pixels into the ground while falling at 100
    pixels per second. *)
Definition sunk_player : player_t :=
  mkPlayer (inject_Z groundY - 12)
    (mkBody (inject_Z groundY - 30) 36 100 false false).

(** * Further vocabulary *)


(** The colour [spawnObstacle] picks under trend [t] with coin [c]. *)
Definition candle_colour (t : Trend) (c : bool) : Z :=
  match t with
  | Up => CANDLE_BULL
  | Down => CANDLE_BEAR
  | Flat => if c then CANDLE_BULL else CANDLE_BEAR
  end.

(** A child of the group that is not past the left threshold. *)
Definition inside (o : obstacle) : bool := negb (past_threshold o).

(** The group read from left to right: no child is to the right of a
    later one. *)
Fixpoint ordered (l : list obstacle) : Prop :=
  match l with
  | [] => True
  | a :: rest => Forall (fun b => (ox a <= ox b)%Q) rest /\ ordered rest
  end.

(** The horizontal velocity obstacles are meant to have: the scroll speed
    to the left while the game runs, none once it is over. *)
Definition scroll_velocity (s : scene) : Q :=
  if gameOverShown s then 0%Q else (- inject_Z (speed s))%Q.

(** Ordering, spawn column and velocities of the obstacle group. *)
Record scroll_inv (s : scene) : Prop := mkScroll {
  scroll_ordered : ordered (obstacles s);
  scroll_column :
    Forall (fun o => (ox o <= inject_Z (DESIGN_WIDTH + 24))%Q) (obstacles s);
  scroll_uniform :
    Forall (fun o => ovx o = scroll_velocity s /\ ovy o = 0%Q /\
                     allowGravity o = true) (obstacles s)
}.

(** Both candles of a pair have the same colour, one of the two candle
    colours. *)
Fixpoint pair_coloured (l : list obstacle) : Prop :=
  match l with
  | [] => True
  | [_] => False
  | top :: bottom :: rest =>
      ocolor bottom = ocolor top /\
      (ocolor top = CANDLE_BULL \/ ocolor top = CANDLE_BEAR) /\
      pair_coloured rest
  end.

(** What the display shows agrees with the stored price state. *)
Definition display_inv (s : scene) : Prop :=
  (background s = BG_BULL \/ background s = BG_BEAR) /\
  (background s = BG_BULL -> priceTrend s = Up) /\
  (forall p, priceText s = TextPrice p -> curPrice s = Some p).

(** Whether [update(_, delta)] reaches the call of [fetchPriceOnce] of
    line 165. *)
Definition fetch_fired (delta : Q) (s : scene) : bool :=
  negb (gameOverShown s) &&
  Qle_bool (inject_Z PRICE_INTERVAL_MS) (fl (priceAcc s + delta)).

(** A double that is not negative and below 2^53: a whole number below
    2^53 over a power of two that is at most 2^1074. *)
Definition small_double (a : Q) : Prop :=
  exists m k : Z,
    0 <= m < 2 ^ 53 /\ 0 <= k <= 1074 /\
    (a == inject_Z m / inject_Z (2 ^ k))%Q.

(** * Verification *)

(** ** Comparisons *)

Lemma Qlt_bool_true (a b : Q) : Qlt_bool a b = true <-> (a < b)%Q.
Proof.
  unfold Qlt_bool. rewrite negb_true_iff. split; intro H.
  - apply Qnot_le_lt. intro L. apply Qle_bool_iff in L. congruence.
  - destruct (Qle_bool b a) eqn:E; [|reflexivity].
    apply Qle_bool_iff in E. exfalso. exact (Qlt_not_le _ _ H E).
Qed.

Lemma Qlt_bool_false (a b : Q) : Qlt_bool a b = false <-> (b <= a)%Q.
Proof.
  unfold Qlt_bool. rewrite negb_false_iff. apply Qle_bool_iff.
Qed.

Lemma Qle_bool_false (a b : Q) : Qle_bool a b = false <-> (b < a)%Q.
Proof.
  split; intro H.
  - apply Qnot_le_lt. intro L. apply Qle_bool_iff in L. congruence.
  - destruct (Qle_bool a b) eqn:E; [|reflexivity].
    apply Qle_bool_iff in E. exfalso. exact (Qlt_not_le _ _ H E).
Qed.

(** ** Rounding to a double *)

Lemma round_half_even_comp (p q : Q) :
  (p == q)%Q -> round_half_even p = round_half_even q.
Proof.
  intro E. unfold round_half_even.
  rewrite (Qfloor_comp _ _ E).
  assert (C : (p - inject_Z (Qfloor q) ?= 1 # 2)%Q
              = (q - inject_Z (Qfloor q) ?= 1 # 2)%Q).
  { apply Qcompare_comp; [rewrite E; reflexivity|reflexivity]. }
  rewrite C. reflexivity.
Qed.

Lemma round_half_even_Z (n : Z) : round_half_even (inject_Z n) = n.
Proof.
  unfold round_half_even. rewrite Qfloor_Z.
  assert (L : (inject_Z n - inject_Z n ?= 1 # 2)%Q = Lt).
  { rewrite <- Qlt_alt. generalize (inject_Z n). intro x. lra. }
  rewrite L. reflexivity.
Qed.

Lemma round_half_even_floor (q : Q) :
  round_half_even q = Qfloor q \/
  (round_half_even q = Qfloor q + 1 /\ (inject_Z (Qfloor q) < q)%Q).
Proof.
  unfold round_half_even.
  destruct (q - inject_Z (Qfloor q) ?= 1 # 2)%Q eqn:C.
  - rewrite <- Qeq_alt in C. destruct (Z.even (Qfloor q)); [left; reflexivity|].
    right. split; [reflexivity|lra].
  - left. reflexivity.
  - rewrite <- Qgt_alt in C. right. split; [reflexivity|lra].
Qed.

Lemma round_half_even_le (q : Q) (n : Z) :
  (q <= inject_Z n)%Q -> round_half_even q <= n.
Proof.
  intro H. pose proof (Qfloor_le q) as F.
  assert (A : Qfloor q <= n).
  { rewrite Zle_Qle. lra. }
  destruct (round_half_even_floor q) as [->|[-> L]]; [exact A|].
  assert (B : Qfloor q < n).
  { rewrite Zlt_Qlt. lra. }
  lia.
Qed.

Lemma round_half_even_ge (q : Q) (n : Z) :
  (inject_Z n <= q)%Q -> n <= round_half_even q.
Proof.
  intro H.
  assert (A : n <= Qfloor q).
  { rewrite <- (Qfloor_Z n). apply Qfloor_resp_le. exact H. }
  destruct (round_half_even_floor q) as [->|[-> _]]; lia.
Qed.


Lemma inject_Z_pow2_pos (e : Z) : 0 <= e -> (0 < inject_Z (2 ^ e))%Q.
Proof.
  intro H. change 0%Q with (inject_Z 0). rewrite <- Zlt_Qlt.
  apply Z.pow_pos_nonneg; lia.
Qed.

Lemma fl_comp (x x' : Q) : (x == x')%Q -> fl x = fl x'.
Proof.
  intro E. unfold fl. apply Qred_complete.
  assert (Ey : (x * inject_Z SCALE == x' * inject_Z SCALE)%Q)
    by (rewrite E; reflexivity).
  assert (EF : shift_of x = shift_of x').
  { unfold shift_of. do 3 f_equal. apply Qfloor_comp. rewrite Ey.
    reflexivity. }
  rewrite EF.
  set (s := 2 ^ shift_of x').
  assert (ER : round_half_even (x * inject_Z SCALE / inject_Z s)
               = round_half_even (x' * inject_Z SCALE / inject_Z s)).
  { apply round_half_even_comp. rewrite Ey. reflexivity. }
  rewrite ER. reflexivity.
Qed.

Lemma fl_unfold (x : Q) :
  (fl x == inject_Z (round_half_even (x * inject_Z SCALE
                                      / inject_Z (2 ^ shift_of x))
                     * 2 ^ shift_of x) / inject_Z SCALE)%Q.
Proof. unfold fl. apply Qred_correct. Qed.

Lemma shift_of_nonneg (x : Q) : 0 <= shift_of x.
Proof. unfold shift_of. lia. Qed.

Lemma floor_scaled (x : Q) :
  (0 <= x)%Q ->
  let F := Qfloor (Qabs (x * inject_Z SCALE)) in
  0 <= F /\ (inject_Z F <= x * inject_Z SCALE)%Q /\
  (x * inject_Z SCALE < inject_Z (F + 1))%Q.
Proof.
  intros Hx F.
  assert (P : (0 < inject_Z SCALE)%Q) by (apply inject_Z_pow2_pos; lia).
  assert (Hy : (0 <= x * inject_Z SCALE)%Q) by (apply Qmult_le_0_compat; lra).
  assert (EF : F = Qfloor (x * inject_Z SCALE)).
  { unfold F. apply Qfloor_comp. apply Qabs_pos. exact Hy. }
  rewrite EF. split; [|split].
  - rewrite <- (Qfloor_Z 0). apply Qfloor_resp_le. exact Hy.
  - apply Qfloor_le.
  - apply Qlt_floor.
Qed.

Lemma log2_succ_le (F : Z) : 0 <= F -> F + 1 <= 2 ^ (Z.log2 F + 1).
Proof.
  intro H. destruct (Z.eq_dec F 0) as [->|N].
  - simpl. lia.
  - pose proof (Z.log2_spec F ltac:(lia)) as [_ U].
    replace (Z.log2 F + 1) with (Z.succ (Z.log2 F)) by lia. lia.
Qed.

(** Below 2^53 the doubles lie on a grid no coarser than the whole
    numbers. *)
Lemma shift_of_small (x : Q) :
  (0 <= x)%Q -> (x < inject_Z (2 ^ 53))%Q -> shift_of x <= 1074.
Proof.
  intros Hx Hb. destruct (floor_scaled x Hx) as (F0 & Fl & Fu).
  set (F := Qfloor (Qabs (x * inject_Z SCALE))) in *.
  assert (P : (0 < inject_Z SCALE)%Q) by (apply inject_Z_pow2_pos; lia).
  assert (B : F < 2 ^ 1127).
  { rewrite Zlt_Qlt.
    apply Qle_lt_trans with (x * inject_Z SCALE)%Q; [exact Fl|].
    replace (2 ^ 1127) with (2 ^ 53 * SCALE)
      by (unfold SCALE; rewrite <- Z.pow_add_r by lia; reflexivity).
    rewrite inject_Z_mult. apply Qmult_lt_r; assumption. }
  unfold shift_of. fold F.
  destruct (Z.eq_dec F 0) as [E|N].
  - rewrite E. simpl. lia.
  - assert (Z.log2 F < 1127) by (apply Z.log2_lt_pow2; lia). lia.
Qed.

Lemma fl_shift (x : Q) :
  (0 <= x)%Q -> (x < inject_Z (2 ^ 53))%Q ->
  let e := 1074 - shift_of x in
  0 <= e <= 1074 /\
  (fl x == inject_Z (round_half_even (x * inject_Z (2 ^ e)))
           / inject_Z (2 ^ e))%Q /\
  (x * inject_Z (2 ^ e) < inject_Z (2 ^ 53))%Q.
Proof.
  intros Hx Hb e.
  pose proof (shift_of_nonneg x) as S0.
  pose proof (shift_of_small x Hx Hb) as S1.
  assert (He : 0 <= e <= 1074) by (unfold e; lia).
  split; [exact He|].
  assert (ES : SCALE = 2 ^ shift_of x * 2 ^ e).
  { unfold SCALE, e. rewrite <- Z.pow_add_r by lia. f_equal. lia. }
  pose proof (inject_Z_pow2_pos (shift_of x) S0) as PA.
  pose proof (inject_Z_pow2_pos e (proj1 He)) as PB.
  assert (EY : (x * inject_Z SCALE / inject_Z (2 ^ shift_of x)
                == x * inject_Z (2 ^ e))%Q).
  { rewrite ES, inject_Z_mult. field. lra. }
  split.
  - rewrite fl_unfold. rewrite (round_half_even_comp _ _ EY).
    rewrite ES. rewrite !inject_Z_mult. field. lra.
  - destruct (floor_scaled x Hx) as (F0 & Fl & Fu).
    set (F := Qfloor (Qabs (x * inject_Z SCALE))) in *.
    pose proof (log2_succ_le F F0) as LG.
    assert (LE : 2 ^ (Z.log2 F + 1) <= 2 ^ (53 + shift_of x)).
    { apply Z.pow_le_mono_r; [lia|]. unfold shift_of. fold F. lia. }
    assert (Y : (x * inject_Z SCALE < inject_Z (2 ^ (53 + shift_of x)))%Q).
    { apply Qlt_le_trans with (inject_Z (F + 1)); [exact Fu|].
      rewrite <- Zle_Qle. lia. }
    rewrite Z.pow_add_r in Y by lia.
    rewrite ES in Y. rewrite !inject_Z_mult in Y.
    set (A := inject_Z (2 ^ shift_of x)) in *.
    set (B := inject_Z (2 ^ e)) in *.
    set (C := inject_Z (2 ^ 53)) in *.
    assert (Y' : (x * B * A < C * A)%Q).
    { setoid_replace (x * B * A)%Q with (x * (A * B))%Q by ring. exact Y. }
    apply Qmult_lt_r in Y'; assumption.
Qed.

Lemma fl_nonneg (x : Q) : (0 <= x)%Q -> (0 <= fl x)%Q.
Proof.
  intro Hx. rewrite fl_unfold.
  pose proof (shift_of_nonneg x) as S0.
  pose proof (inject_Z_pow2_pos (shift_of x) S0) as PA.
  assert (P : (0 < inject_Z SCALE)%Q) by (apply inject_Z_pow2_pos; lia).
  assert (R : 0 <= round_half_even (x * inject_Z SCALE
                                    / inject_Z (2 ^ shift_of x))).
  { apply round_half_even_ge. change (inject_Z 0) with 0%Q.
    apply Qle_shift_div_l; [exact PA|].
    setoid_replace (0 * inject_Z (2 ^ shift_of x))%Q with 0%Q by ring.
    apply Qmult_le_0_compat; lra. }
  apply Qle_shift_div_l; [exact P|].
  setoid_replace (0 * inject_Z SCALE)%Q with (inject_Z 0) by ring.
  rewrite <- Zle_Qle. apply Z.mul_nonneg_nonneg; [exact R|].
  apply Z.pow_nonneg. lia.
Qed.

Lemma fl_le_int (x : Q) (n : Z) :
  (0 <= x)%Q -> (x <= inject_Z n)%Q -> n < 2 ^ 53 -> (fl x <= inject_Z n)%Q.
Proof.
  intros Hx Hn Hb.
  assert (Hb' : (x < inject_Z (2 ^ 53))%Q).
  { apply Qle_lt_trans with (inject_Z n); [exact Hn|].
    rewrite <- Zlt_Qlt. exact Hb. }
  destruct (fl_shift x Hx Hb') as (He & Ef & _).
  set (e := 1074 - shift_of x) in *.
  pose proof (inject_Z_pow2_pos e (proj1 He)) as PB.
  rewrite Ef. apply Qle_shift_div_r; [exact PB|].
  rewrite <- inject_Z_mult, <- Zle_Qle.
  apply round_half_even_le. rewrite inject_Z_mult.
  apply Qmult_le_compat_r; lra.
Qed.

Lemma fl_ge_int_small (x : Q) (n : Z) :
  (x < inject_Z (2 ^ 53))%Q -> 0 <= n -> (inject_Z n <= x)%Q ->
  (inject_Z n <= fl x)%Q.
Proof.
  intros Hb Hn Hx.
  assert (H0 : (0 <= x)%Q).
  { apply Qle_trans with (inject_Z n); [|exact Hx].
    change 0%Q with (inject_Z 0). rewrite <- Zle_Qle. exact Hn. }
  destruct (fl_shift x H0 Hb) as (He & Ef & _).
  set (e := 1074 - shift_of x) in *.
  pose proof (inject_Z_pow2_pos e (proj1 He)) as PB.
  rewrite Ef. apply Qle_shift_div_l; [exact PB|].
  rewrite <- inject_Z_mult, <- Zle_Qle.
  apply round_half_even_ge. rewrite inject_Z_mult.
  apply Qmult_le_compat_r; lra.
Qed.

Lemma fl_ge_big (x : Q) :
  (inject_Z (2 ^ 53) <= x)%Q -> (inject_Z (2 ^ 53) <= fl x)%Q.
Proof.
  intro Hb.
  assert (Hx : (0 <= x)%Q).
  { apply Qle_trans with (inject_Z (2 ^ 53)); [|exact Hb].
    apply Qlt_le_weak, inject_Z_pow2_pos. lia. }
  assert (P : (0 < inject_Z SCALE)%Q) by (apply inject_Z_pow2_pos; lia).
  pose proof (shift_of_nonneg x) as S0.
  pose proof (inject_Z_pow2_pos (shift_of x) S0) as PA.
  destruct (floor_scaled x Hx) as (F0 & Fl & Fu).
  assert (EL : shift_of x = Z.log2 (Qfloor (Qabs (x * inject_Z SCALE))) - 52
               \/ shift_of x = 0) by (unfold shift_of; lia).
  set (F := Qfloor (Qabs (x * inject_Z SCALE))) in *.
  assert (B : 2 ^ 1127 <= F).
  { assert (B' : 2 ^ 1127 < F + 1); [|lia].
    rewrite Zlt_Qlt.
    apply Qle_lt_trans with (x * inject_Z SCALE)%Q; [|exact Fu].
    replace (2 ^ 1127) with (2 ^ 53 * SCALE)
      by (unfold SCALE; rewrite <- Z.pow_add_r by lia; reflexivity).
    rewrite inject_Z_mult. apply Qmult_le_compat_r; lra. }
  assert (FP : 0 < F).
  { assert (0 < 2 ^ 1127) by (apply Z.pow_pos_nonneg; lia). lia. }
  assert (L : 1127 <= Z.log2 F) by (apply Z.log2_le_pow2; lia).
  assert (ES : shift_of x = Z.log2 F - 52) by (unfold shift_of; fold F; lia).
  pose proof (Z.log2_spec F FP) as [LS _].
  assert (EP : 2 ^ Z.log2 F = 2 ^ 52 * 2 ^ shift_of x).
  { rewrite <- Z.pow_add_r by lia. f_equal. lia. }
  assert (R : 2 ^ 52 <= round_half_even (x * inject_Z SCALE
                                         / inject_Z (2 ^ shift_of x))).
  { apply round_half_even_ge. apply Qle_shift_div_l; [exact PA|].
    rewrite <- inject_Z_mult, <- EP.
    apply Qle_trans with (inject_Z F); [|exact Fl].
    rewrite <- Zle_Qle. exact LS. }
  rewrite fl_unfold. apply Qle_shift_div_l; [exact P|].
  rewrite <- inject_Z_mult, <- Zle_Qle.
  assert (SP : 0 < 2 ^ shift_of x) by (apply Z.pow_pos_nonneg; lia).
  assert (M : 2 ^ 53 * SCALE <= 2 ^ 52 * 2 ^ shift_of x).
  { rewrite <- EP. unfold SCALE. rewrite <- Z.pow_add_r by lia.
    apply Z.pow_le_mono_r; lia. }
  nia.
Qed.

Lemma fl_ge_int (x : Q) (n : Z) :
  0 <= n <= 2 ^ 53 -> (inject_Z n <= x)%Q -> (inject_Z n <= fl x)%Q.
Proof.
  intros Hn Hx. destruct (Qlt_le_dec x (inject_Z (2 ^ 53))) as [S|B].
  - apply fl_ge_int_small; [exact S|lia|exact Hx].
  - apply Qle_trans with (inject_Z (2 ^ 53)).
    + rewrite <- Zle_Qle. lia.
    + apply fl_ge_big. exact B.
Qed.

Lemma fl_small_double (x : Q) :
  (0 <= x)%Q -> (x <= inject_Z (2 ^ 52))%Q -> small_double (fl x).
Proof.
  intros Hx Hb.
  assert (Hb' : (x < inject_Z (2 ^ 53))%Q).
  { apply Qle_lt_trans with (inject_Z (2 ^ 52)); [exact Hb|].
    rewrite <- Zlt_Qlt. reflexivity. }
  destruct (fl_shift x Hx Hb') as (He & Ef & Bd).
  set (e := 1074 - shift_of x) in *.
  pose proof (inject_Z_pow2_pos e (proj1 He)) as PB.
  set (r := round_half_even (x * inject_Z (2 ^ e))) in *.
  assert (R0 : 0 <= r).
  { apply round_half_even_ge. change (inject_Z 0) with 0%Q.
    apply Qmult_le_0_compat; lra. }
  assert (R1 : r <= 2 ^ 53).
  { apply round_half_even_le. lra. }
  destruct (Z.eq_dec r (2 ^ 53)) as [E|N].
  - pose proof (fl_le_int x (2 ^ 52) Hx Hb ltac:(reflexivity)) as U.
    rewrite Ef, E in U.
    assert (U' : (inject_Z (2 ^ 53) <= inject_Z (2 ^ 52) * inject_Z (2 ^ e))%Q).
    { setoid_replace (inject_Z (2 ^ 53))
        with (inject_Z (2 ^ 53) / inject_Z (2 ^ e) * inject_Z (2 ^ e))%Q
        by (field; lra).
      apply Qmult_le_compat_r; [exact U|lra]. }
    rewrite <- inject_Z_mult, <- Zle_Qle in U'.
    assert (E1 : 1 <= e).
    { destruct (Z.eq_dec e 0) as [Z0|NZ]; [|lia].
      rewrite Z0 in U'. vm_compute in U'. exfalso. apply U'. reflexivity. }
    exists (2 ^ 52), (e - 1).
    split; [split; [apply Z.pow_nonneg; lia|reflexivity]|].
    split; [lia|].
    rewrite Ef, E.
    assert (X : 2 ^ e = 2 * 2 ^ (e - 1)).
    { replace e with (Z.succ (e - 1)) at 1 by lia.
      apply Z.pow_succ_r. lia. }
    pose proof (inject_Z_pow2_pos (e - 1) ltac:(lia)) as PC.
    rewrite X. change (2 ^ 53) with (2 * 2 ^ 52). rewrite !inject_Z_mult.
    field. lra.
  - exists r, e. split; [lia|]. split; [exact He|exact Ef].
Qed.

Lemma small_double_comp (a b : Q) :
  (a == b)%Q -> small_double a -> small_double b.
Proof.
  intros E (m & k & Hm & Hk & Ea). exists m, k.
  split; [exact Hm|]. split; [exact Hk|]. rewrite <- E. exact Ea.
Qed.

Lemma small_double_Z (n : Z) : 0 <= n < 2 ^ 53 -> small_double (inject_Z n).
Proof.
  intro H. exists n, 0. split; [exact H|]. split; [lia|].
  change (inject_Z (2 ^ 0)) with 1%Q. field.
Qed.

Lemma small_double_nonneg (a : Q) : small_double a -> (0 <= a)%Q.
Proof.
  intros (m & k & Hm & Hk & Ea). rewrite Ea.
  pose proof (inject_Z_pow2_pos k (proj1 Hk)) as P.
  apply Qle_shift_div_l; [exact P|].
  setoid_replace (0 * inject_Z (2 ^ k))%Q with (inject_Z 0) by ring.
  rewrite <- Zle_Qle. lia.
Qed.

(** Subtracting a whole number that does not exceed a double leaves a double:
    the difference lies on the same grid and is smaller. *)
Lemma small_double_sub (a : Q) (D : Z) :
  small_double a -> 0 <= D -> (inject_Z D <= a)%Q ->
  small_double (a - inject_Z D).
Proof.
  intros (m & k & Hm & Hk & Ea) HD Hle.
  pose proof (inject_Z_pow2_pos k (proj1 Hk)) as P.
  assert (PZ : 0 < 2 ^ k) by (apply Z.pow_pos_nonneg; lia).
  assert (M : D * 2 ^ k <= m).
  { rewrite Zle_Qle, inject_Z_mult.
    setoid_replace (inject_Z m)
      with (inject_Z m / inject_Z (2 ^ k) * inject_Z (2 ^ k))%Q
      by (field; lra).
    apply Qmult_le_compat_r; [|lra]. rewrite <- Ea. exact Hle. }
  exists (m - D * 2 ^ k), k. split; [nia|]. split; [exact Hk|].
  rewrite Ea. unfold Z.sub.
  rewrite inject_Z_plus, inject_Z_opp, inject_Z_mult. field. lra.
Qed.

(** A double is its own rounding. *)
Lemma fl_exact (a : Q) : small_double a -> (fl a == a)%Q.
Proof.
  intros (m & k & Hm & Hk & Ea).
  rewrite (fl_comp _ _ Ea). rewrite Ea.
  set (a' := (inject_Z m / inject_Z (2 ^ k))%Q).
  pose proof (inject_Z_pow2_pos k (proj1 Hk)) as P.
  assert (PZ : 0 < 2 ^ k) by (apply Z.pow_pos_nonneg; lia).
  assert (H0 : (0 <= a')%Q).
  { apply (small_double_nonneg a'). exists m, k.
    split; [exact Hm|]. split; [exact Hk|reflexivity]. }
  assert (H1 : (a' < inject_Z (2 ^ 53))%Q).
  { unfold a'. apply Qlt_shift_div_r; [exact P|].
    rewrite <- inject_Z_mult, <- Zlt_Qlt. nia. }
  set (t := 1074 - k).
  assert (ES : SCALE = 2 ^ k * 2 ^ t).
  { unfold SCALE, t. rewrite <- Z.pow_add_r by lia. f_equal. lia. }
  assert (TP : 0 < 2 ^ t) by (apply Z.pow_pos_nonneg; lia).
  assert (EY : (a' * inject_Z SCALE == inject_Z (m * 2 ^ t))%Q).
  { unfold a'. rewrite ES, !inject_Z_mult. field. lra. }
  assert (EF : Qfloor (Qabs (a' * inject_Z SCALE)) = m * 2 ^ t).
  { rewrite <- (Qfloor_Z (m * 2 ^ t)). apply Qfloor_comp.
    rewrite EY. apply Qabs_pos.
    change 0%Q with (inject_Z 0). rewrite <- Zle_Qle. nia. }
  assert (SH : shift_of a' <= t).
  { unfold shift_of. rewrite EF.
    destruct (Z.eq_dec (m * 2 ^ t) 0) as [Z0|NZ].
    - rewrite Z0. simpl. lia.
    - assert (Z.log2 (m * 2 ^ t) < 53 + t); [|lia].
      apply Z.log2_lt_pow2; [nia|].
      rewrite Z.pow_add_r by lia. nia. }
  destruct (fl_shift a' H0 H1) as (He & Ef & _).
  set (e := 1074 - shift_of a') in *.
  pose proof (inject_Z_pow2_pos e (proj1 He)) as PB.
  assert (EE : 2 ^ e = 2 ^ k * 2 ^ (e - k)).
  { rewrite <- Z.pow_add_r by (unfold e, t in *; lia). f_equal. lia. }
  pose proof (inject_Z_pow2_pos (e - k) ltac:(unfold e, t in *; lia)) as PC.
  assert (ER : (a' * inject_Z (2 ^ e) == inject_Z (m * 2 ^ (e - k)))%Q).
  { unfold a'. rewrite EE, !inject_Z_mult. field. lra. }
  rewrite Ef, (round_half_even_comp _ _ ER), round_half_even_Z.
  unfold a'. rewrite EE, !inject_Z_mult. field. split; lra.
Qed.

(** ** Reachable states *)

Lemma reachable_run (evs : list event) (s s' : scene) :
  reachable s -> run evs s = Some s' -> reachable s'.
Proof.
  revert s. induction evs as [|ev evs IH]; simpl; intros s R H.
  - injection H as <-. exact R.
  - destruct (exec ev s) as [s1|] eqn:E; [|discriminate].
    apply (IH s1); [|exact H]. exact (reach_step ev s s1 R E).
Qed.

(** Invariants are proved by showing that they hold in [init] and that
    every callback keeps them. *)
Lemma invariant_reachable (P : scene -> Prop) :
  P init ->
  (forall ev s s', P s -> exec ev s = Some s' -> P s') ->
  forall s, reachable s -> P s.
Proof.
  intros Hinit Hstep s R. induction R as [|ev s s' _ IH E].
  - exact Hinit.
  - exact (Hstep ev s s' IH E).
Qed.

(** ** What each part of a frame leaves alone *)

Lemma spawn_loop_frame (fuel : nat) : forall i draws s s',
  spawn_loop fuel i draws s = Some s' ->
  session_of s' = session_of s /\ prices_of s' = prices_of s /\
  player s' = player s /\ priceAcc s' = priceAcc s.
Proof.
  induction fuel as [|fuel IH]; intros i draws s s'; simpl;
    destruct (Qle_bool (inject_Z (spawnDelay s)) (spawnAcc s)); intro H;
    try discriminate; try (injection H as <-; repeat split; reflexivity).
  apply IH in H. exact H.
Qed.

Lemma sweep_snd (objs : list obstacle) : forall s,
  snd (sweep objs s) = Nat.iter (count_scoring objs) score_event s.
Proof.
  unfold count_scoring.
  induction objs as [|o rest IH]; intro s; simpl; [reflexivity|].
  unfold scores at 1.
  destruct (Qlt_bool (ox o) (-60)); simpl.
  - destruct (_scored o); simpl.
    + apply IH.
    + rewrite IH. rewrite <- Nat.iter_succ_r. reflexivity.
  - specialize (IH s). destruct (sweep rest s) as [kept s1]. exact IH.
Qed.

(** The children a sweep keeps are those not past the threshold. *)
Lemma sweep_fst_inside (objs : list obstacle) : forall s,
  Forall (fun o => (-60 <= ox o)%Q) (fst (sweep objs s)).
Proof.
  induction objs as [|o rest IH]; intro s; simpl; [constructor|].
  destruct (Qlt_bool (ox o) (-60)) eqn:E.
  - apply IH.
  - specialize (IH s). destruct (sweep rest s) as [kept s1]. simpl in *.
    constructor; [|exact IH]. simpl. apply Qlt_bool_false. exact E.
Qed.

Lemma iter_score_event_fields (n : nat) (s : scene) :
  let s' := Nat.iter n score_event s in
  score s' = score s + Z.of_nat n /\
  scoreText s' = (if Nat.eqb n 0 then scoreText s
                  else score s + Z.of_nat n) /\
  gameOverShown s' = gameOverShown s /\ overlay s' = overlay s /\
  prices_of s' = prices_of s /\ player s' = player s /\
  obstacles s' = obstacles s /\ spawnAcc s' = spawnAcc s /\
  priceAcc s' = priceAcc s /\ priceText s' = priceText s /\
  background s' = background s.
Proof.
  induction n as [|n IH].
  - simpl. repeat split; lia.
  - cbv zeta in *. rewrite Nat.iter_succ.
    destruct IH as (H1 & H2 & H3 & H4 & H5 & H6 & H7 & H8 & H9 & H10 & H11).
    unfold prices_of in *. simpl.
    rewrite H1, H3, H4, H6, H7, H8, H9, H10, H11.
    injection H5 as -> -> ->.
    repeat split; lia.
Qed.

(** ** The price poller *)

(** C2, as stated, fails: an OK response whose price does not parse is
    one of the claimed failures, yet it leaves the display at its
    placeholder instead of showing the error string. *)
Lemma unparsable_price_shows_no_error :
  let o := BodyJson true (JHolds NaN) in
  claimed_failure o = true /\
  priceText (fetchPriceOnce o init) = TextPlaceholder /\
  priceText (fetchPriceOnce o init) <> TextFetchError.
Proof.
  cbv zeta. split; [reflexivity|]. split; [reflexivity|]. discriminate.
Qed.

(** The status of the response is not looked at either: a response that
    is not OK but carries a price is stored like any other. *)
Example non_ok_response_is_stored :
  let s := fetchPriceOnce (BodyJson false (JHolds (Num 60000))) init in
  curPrice init = None /\ curPrice s = Some 60000%Q /\
  priceText s = TextPrice 60000.
Proof. repeat split. Qed.

(** C2, amended.  A completion that throws (a rejected request, a body
    that is not JSON, a JSON [null]) leaves last price, current price and
    trend as they were and shows the error string; a payload whose price
    does not parse changes nothing at all, the display included; the
    response status plays no part. *)
Theorem failed_fetch_keeps_prices (s : scene) :
  (prices_of (fetchPriceOnce FetchRejected s) = prices_of s /\
   priceText (fetchPriceOnce FetchRejected s) = TextFetchError) /\
  (forall ok,
     prices_of (fetchPriceOnce (BodyNotJson ok) s) = prices_of s /\
     priceText (fetchPriceOnce (BodyNotJson ok) s) = TextFetchError) /\
  (forall ok,
     prices_of (fetchPriceOnce (BodyJson ok JNull) s) = prices_of s /\
     priceText (fetchPriceOnce (BodyJson ok JNull) s) = TextFetchError) /\
  (forall ok, fetchPriceOnce (BodyJson ok (JHolds NaN)) s = s) /\
  (forall ok p,
     curPrice (fetchPriceOnce (BodyJson ok (JHolds (Num p))) s) = Some p /\
     priceText (fetchPriceOnce (BodyJson ok (JHolds (Num p))) s)
       = TextPrice p).
Proof.
  repeat split.
Qed.

Lemma poll_app (ps qs : list Q) (s : scene) :
  poll (ps ++ qs) s = poll qs (poll ps s).
Proof. apply fold_left_app. Qed.

Lemma poll_last_current (ps : list Q) (p : Q) (s : scene) :
  curPrice (poll (ps ++ [p]) s) = Some p.
Proof. rewrite poll_app. reflexivity. Qed.

(** The price fields after a run of completions are those after the
    prices it carries: failed completions in between do not count. *)
Lemma poll_prices (ps : list Q) : forall s1 s2,
  prices_of s1 = prices_of s2 ->
  prices_of (poll ps s1) = prices_of (poll ps s2).
Proof.
  induction ps as [|p ps IH]; intros s1 s2 E; [exact E|].
  simpl. apply IH. unfold prices_of in *. injection E as E1 E2 E3.
  simpl. rewrite E1, E2. reflexivity.
Qed.

Lemma completions_prices (os : list fetch_outcome) : forall s,
  prices_of (completions os s) = prices_of (poll (parsed_prices os) s).
Proof.
  induction os as [|o os IH]; intro s; [reflexivity|].
  unfold completions, parsed_prices in *. simpl. rewrite IH.
  destruct o as [|ok|ok [|[|p]]]; simpl; apply poll_prices; reflexivity.
Qed.

(** C3.  From the initial scene, the first sample gives trend flat; every
    later sample [p] arriving after [prev] moves [prev] into the last
    price, stores [p] as current price, and gives flat when [p = prev], up
    when [p > prev] and down when [p < prev].  Completions that store no
    price may come in between without changing this. *)
Theorem trend_of_samples (ps : list Q) (prev p : Q) :
  (priceTrend (poll [p] init) = Flat /\
   lastPrice (poll [p] init) = None /\
   curPrice (poll [p] init) = Some p) /\
  (let before := poll (ps ++ [prev]) init in
   let after := fetchPriceOnce (sample p) before in
   poll (ps ++ [prev; p]) init = after /\
   curPrice before = Some prev /\
   lastPrice after = Some prev /\
   curPrice after = Some p /\
   ((p == prev)%Q -> priceTrend after = Flat) /\
   ((prev < p)%Q -> priceTrend after = Up) /\
   ((p < prev)%Q -> priceTrend after = Down)) /\
  (forall os,
     parsed_prices os = ps ++ [prev; p] ->
     prices_of (completions os init)
     = prices_of (poll (ps ++ [prev; p]) init)).
Proof.
  split; [repeat split|].
  split; [|intros os E; rewrite completions_prices, E; reflexivity].
  cbv zeta.
  assert (C : curPrice (poll (ps ++ [prev]) init) = Some prev)
    by apply poll_last_current.
  split.
  { change [prev; p] with ([prev] ++ [p]).
    rewrite app_assoc, poll_app. reflexivity. }
  split; [exact C|].
  unfold sample, fetchPriceOnce, store_price. simpl. rewrite C. simpl.
  split; [reflexivity|]. split; [reflexivity|].
  repeat split; intro H.
  - apply Qeq_bool_iff in H. rewrite H. reflexivity.
  - destruct (Qeq_bool p prev) eqn:E.
    + apply Qeq_bool_iff in E. rewrite E in H.
      exfalso. exact (Qlt_irrefl _ H).
    + apply Qlt_bool_true in H. rewrite H. reflexivity.
  - destruct (Qeq_bool p prev) eqn:E.
    + apply Qeq_bool_iff in E. rewrite E in H.
      exfalso. exact (Qlt_irrefl _ H).
    + assert (L : Qlt_bool prev p = false)
        by (apply Qlt_bool_false; apply Qlt_le_weak; exact H).
      rewrite L. reflexivity.
Qed.

Lemma trend_of_samples_witness :
  priceTrend (poll [60000; 60500]%Q init) = Up /\
  priceTrend (poll [60000; 60500; 60500]%Q init) = Flat /\
  priceTrend (poll [60000; 60500; 60500; 59000]%Q init) = Down.
Proof.
  split; [|split].
  - destruct (trend_of_samples [] 60000 60500)
      as (_ & (E & _ & _ & _ & _ & U & _) & _).
    simpl app in E. rewrite E. apply U. reflexivity.
  - destruct (trend_of_samples [60000]%Q 60500 60500)
      as (_ & (E & _ & _ & _ & F & _ & _) & _).
    simpl app in E. rewrite E. apply F. reflexivity.
  - destruct (trend_of_samples [60000; 60500]%Q 60500 59000)
      as (_ & (E & _ & _ & _ & _ & _ & D) & _).
    simpl app in E. rewrite E. apply D. reflexivity.
Defined.

Lemma store_price_inv (p : Q) (s : scene) :
  price_inv s -> price_inv (store_price p s).
Proof.
  intros [H1 H2]. unfold price_inv, store_price. simpl.
  split; [discriminate|].
  destruct (curPrice s) as [c|]; simpl.
  - intros _. split; discriminate.
  - destruct (lastPrice s) as [l|]; simpl.
    + exfalso. apply H1; [discriminate|reflexivity].
    + intro N. exfalso. apply N. reflexivity.
Qed.

Lemma fetchPriceOnce_inv (o : fetch_outcome) (s : scene) :
  price_inv s -> price_inv (fetchPriceOnce o s).
Proof.
  intro H. destruct o as [|ok|ok [|[|p]]]; simpl; try exact H.
  apply store_price_inv. exact H.
Qed.

Lemma update_prices (fuel : nat) (delta : Q) (draws : nat -> draw)
    (s s' : scene) :
  update fuel delta draws s = Some s' -> prices_of s' = prices_of s.
Proof.
  unfold update. destruct (gameOverShown s).
  - intro H. injection H as <-. reflexivity.
  - destruct (spawn_loop fuel 0 draws (frame_begin delta s)) as [s3|] eqn:L;
      simpl; [|discriminate].
    intro H. injection H as <-.
    apply spawn_loop_frame in L. destruct L as (_ & P & _).
    assert (B : prices_of (frame_begin delta s) = prices_of s).
    { unfold frame_begin, price_tick. simpl.
      destruct (Qle_bool _ _); reflexivity. }
    rewrite B in P. rewrite <- P.
    unfold frame_end.
    pose proof (sweep_snd (obstacles s3) s3) as S.
    destruct (sweep (obstacles s3) s3) as [kept s1]. simpl in S. subst s1.
    pose proof (iter_score_event_fields
                  (count_scoring (obstacles s3)) s3) as F.
    cbv zeta in F. destruct F as (_ & _ & _ & _ & F & _).
    destruct (Qlt_bool _ _); [unfold onGameOver; simpl;
      destruct (gameOverShown _)|]; exact F.
Qed.

Lemma exec_price_inv (ev : event) (s s' : scene) :
  price_inv s -> exec ev s = Some s' -> price_inv s'.
Proof.
  assert (T : forall a b, prices_of a = prices_of b ->
                          price_inv b -> price_inv a).
  { intros a b E. unfold prices_of in E. injection E as E1 E2 E3.
    unfold price_inv. rewrite E1, E2, E3. exact (fun H => H). }
  intros I. destruct ev as [fuel delta draws| | o | |dt p| ]; simpl.
  - destruct (Qle_bool 0 delta); [|discriminate].
    intro H. apply update_prices in H. exact (T _ _ H I).
  - intro H. injection H as <-. apply (T _ s); [|exact I].
    unfold tryJump. destruct (gameOverShown s); [reflexivity|].
    destruct (_ || _); reflexivity.
  - intro H. injection H as <-. apply fetchPriceOnce_inv. exact I.
  - intro H. injection H as <-. apply (T _ s); [|exact I].
    unfold onGameOver. destruct (gameOverShown s); reflexivity.
  - destruct (Qle_bool 0 dt); [|discriminate].
    intro H. injection H as <-. exact I.
  - destruct (gameOverShown s); [|discriminate].
    intro H. injection H as <-. exact I.
Qed.

(** C10.  In every reachable state a last price comes with a current
    price, and a trend up or down comes with both. *)
Theorem prices_present (s : scene) :
  reachable s ->
  (lastPrice s <> None -> curPrice s <> None) /\
  ((priceTrend s = Up \/ priceTrend s = Down) ->
   lastPrice s <> None /\ curPrice s <> None).
Proof.
  intro R.
  assert (I : price_inv s).
  { revert s R. apply invariant_reachable.
    - split; intro N; exfalso; apply N; reflexivity.
    - exact exec_price_inv. }
  destruct I as [I1 I2]. split; [exact I1|].
  intro T. apply I2. destruct T as [T|T]; rewrite T; discriminate.
Qed.

Lemma prices_present_witness :
  let s := poll [60000; 60500]%Q init in
  priceTrend s = Up /\ lastPrice s <> None /\ curPrice s <> None.
Proof.
  cbv zeta.
  assert (R : reachable (poll [60000; 60500]%Q init)).
  { apply (reachable_run
             [EvFetchDone (sample 60000); EvFetchDone (sample 60500)] init).
    - exact reach_init.
    - reflexivity. }
  split; [reflexivity|].
  apply (prices_present _ R). left. reflexivity.
Defined.

(** ** Jump control *)

(** C5.  A jump request of a player in ground contact, while the game is
    not over, sets the vertical velocity to -630 and nothing else; any
    other jump request leaves the scene as it is. *)
Theorem jump_request (s : scene) :
  (gameOverShown s = false -> on_ground s = true ->
   tryJump s =
     set_player s
       (mkPlayer (player_y (player s))
          (set_velocity_y (player_body (player s)) (-630))) /\
   velocity_y (player_body (player (tryJump s))) = (-630)%Q) /\
  (gameOverShown s = true \/ on_ground s = false -> tryJump s = s).
Proof.
  unfold on_ground, tryJump. split.
  - intros G C. rewrite G, C. split; reflexivity.
  - intros [G|C].
    + rewrite G. reflexivity.
    + rewrite C. destruct (gameOverShown s); reflexivity.
Qed.

Lemma jump_request_witness :
  velocity_y (player_body
                (player (tryJump (physics 16 standing_player init))))
    = (-630)%Q /\
  tryJump init = init /\
  tryJump (onGameOver (physics 16 standing_player init))
    = onGameOver (physics 16 standing_player init).
Proof.
  split; [|split].
  - apply (jump_request (physics 16 standing_player init)); reflexivity.
  - apply (jump_request init). right. reflexivity.
  - apply (jump_request (onGameOver (physics 16 standing_player init))).
    left. reflexivity.
Defined.

(** ** The ground clamp *)

(** What lines 153-158 do to a body that reaches below the ground line:
    the body is put back on the line, a velocity pointing down (positive
    [y]) is kept and a velocity pointing up is set to 0. *)
Lemma clamp_to_ground_below (b : body) :
  (inject_Z groundY < body_y b + body_height b)%Q ->
  let b' := clamp_to_ground b in
  (body_y b' + body_height b' == inject_Z groundY)%Q /\
  ((0 <= velocity_y b)%Q -> velocity_y b' = velocity_y b) /\
  ((velocity_y b < 0)%Q -> velocity_y b' = 0%Q).
Proof.
  intro H. unfold clamp_to_ground.
  apply Qlt_bool_true in H. rewrite H. simpl.
  split; [ring|]. unfold js_max. split; intro V.
  - apply Qle_bool_iff in V. rewrite V. reflexivity.
  - apply Qle_bool_false in V. rewrite V. reflexivity.
Qed.

(** C8 at the failing input: the update puts the body back on the ground
    line but the downward velocity of 100 is still there afterwards. *)
Example clamp_keeps_falling_velocity :
  let s := physics 16 sunk_player init in
  let draws := fun _ : nat => mkDraw true 150 280 in
  exists s',
    update 0 16 draws s = Some s' /\
    body_y (player_body (player s)) = (inject_Z groundY - 30)%Q /\
    body_y (player_body (player s')) = (inject_Z groundY - 36)%Q /\
    velocity_y (player_body (player s)) = 100%Q /\
    velocity_y (player_body (player s')) = 100%Q.
Proof.
  cbv zeta. eexists. split; [vm_compute; reflexivity|].
  repeat split.
Qed.

(** ** Candle pairs *)

Lemma pairs_ind (P : list obstacle -> Prop) :
  P [] ->
  (forall a, P [a]) ->
  (forall a b l, P l -> P (a :: b :: l)) ->
  forall l, P l.
Proof.
  intros H0 H1 H2 l.
  assert (B : P l /\ forall a, P (a :: l)).
  { induction l as [|b l [IH1 IH2]].
    - split; [exact H0|exact H1].
    - split; [apply IH2|]. intro a. apply H2. exact IH1. }
  exact (proj1 B).
Qed.

Lemma paired_app (l1 l2 : list obstacle) :
  paired l1 -> paired l2 -> paired (l1 ++ l2).
Proof.
  induction l1 as [|a|a b l IH] using pairs_ind; simpl; intros P1 P2.
  - exact P2.
  - contradiction.
  - destruct P1 as [T P1]. split; [exact T|]. exact (IH P1 P2).
Qed.

Lemma paired_map (f : obstacle -> obstacle) (l : list obstacle) :
  (forall t b, twin t b -> twin (f t) (f b)) ->
  paired l -> paired (map f l).
Proof.
  intro F.
  induction l as [|a|a b l IH] using pairs_ind; simpl; intro P.
  - exact I.
  - contradiction.
  - destruct P as [T P]. split; [exact (F a b T)|exact (IH P)].
Qed.

Lemma exited_pairs_app (l1 l2 : list obstacle) :
  paired l1 ->
  exited_pairs (l1 ++ l2) = (exited_pairs l1 + exited_pairs l2)%nat.
Proof.
  induction l1 as [|a|a b l IH] using pairs_ind; simpl; intro P.
  - reflexivity.
  - contradiction.
  - destruct P as [_ P]. rewrite (IH P). lia.
Qed.

Lemma twin_advance (dt : Q) (t b : obstacle) :
  twin t b -> twin (advance dt t) (advance dt b).
Proof.
  intros (X & V & S1 & S2 & W1 & W2). unfold twin. simpl.
  rewrite X, V. repeat split; assumption.
Qed.

Lemma twin_freeze (t b : obstacle) : twin t b -> twin (freeze t) (freeze b).
Proof.
  intros (X & V & S1 & S2 & W1 & W2). unfold twin. simpl.
  repeat split; assumption.
Qed.

(** A sweep over a group of pairs drops the pairs past the threshold,
    scores both candles of each, and keeps the other pairs. *)
Lemma sweep_paired (l : list obstacle) :
  paired l ->
  forall s,
    paired (fst (sweep l s)) /\
    count_scoring l = (2 * exited_pairs l)%nat /\
    (length (fst (sweep l s)) + 2 * exited_pairs l)%nat = length l.
Proof.
  unfold count_scoring.
  induction l as [|a|a b l IH] using pairs_ind; intros P s.
  - simpl. repeat split; exact I.
  - contradiction.
  - destruct P as [(X & V & S1 & S2 & W1 & W2) P].
    specialize (IH P).
    assert (Ea : scores a = Qlt_bool (ox a) (-60))
      by (unfold scores; rewrite S1; apply andb_true_r).
    assert (Eb : scores b = Qlt_bool (ox a) (-60))
      by (unfold scores; rewrite X, S2; apply andb_true_r).
    cbn [sweep filter exited_pairs]. rewrite Ea, Eb, X, S1, S2.
    destruct (Qlt_bool (ox a) (-60)).
    + destruct (IH (score_event (score_event s))) as (I1 & I2 & I3).
      split; [exact I1|]. cbn [length]. split; lia.
    + destruct (IH s) as (I1 & I2 & I3).
      destruct (sweep l s) as [kept s1]. cbn [fst] in *.
      split.
      { split; [|exact I1]. unfold twin. simpl. repeat split; assumption. }
      cbn [length]. split; lia.
Qed.

(** ** The spawn loop *)

Lemma spawn_times_frame (k : nat) : forall i draws s,
  let s' := spawn_times k i draws s in
  session_of s' = session_of s /\ prices_of s' = prices_of s /\
  player s' = player s /\ priceAcc s' = priceAcc s /\
  scoreText s' = scoreText s /\ priceText s' = priceText s /\
  background s' = background s.
Proof.
  induction k as [|k IH]; intros i draws s; simpl.
  - repeat split.
  - exact (IH (S i) draws
             (spawnObstacle (draws i)
                (set_spawnAcc s
                   (fl (spawnAcc s - inject_Z (spawnDelay s)))))).
Qed.

Lemma spawn_times_obstacles (k : nat) : forall i draws s,
  obstacles (spawn_times k i draws s) =
  obstacles s
  ++ flat_map (fun j => map group_defaults (spawn_pair (draws j) s))
       (seq i k).
Proof.
  induction k as [|k IH]; intros i draws s; simpl.
  - symmetry. apply app_nil_r.
  - rewrite IH. simpl. rewrite <- app_assoc. reflexivity.
Qed.

(** One turn of the loop on the accumulator: the interval is a whole
    number that the accumulator has reached, so the difference is a
    double and [-=] does not round. *)
Lemma spawn_step_exact (s : scene) :
  small_double (spawnAcc s) -> 0 <= spawnDelay s ->
  (inject_Z (spawnDelay s) <= spawnAcc s)%Q ->
  small_double (fl (spawnAcc s - inject_Z (spawnDelay s))) /\
  (fl (spawnAcc s - inject_Z (spawnDelay s))
   == spawnAcc s - inject_Z (spawnDelay s))%Q.
Proof.
  intros G D C.
  pose proof (small_double_sub _ _ G D C) as G'.
  pose proof (fl_exact _ G') as E.
  split; [|exact E].
  apply (small_double_comp (spawnAcc s - inject_Z (spawnDelay s))%Q);
    [symmetry; exact E|exact G'].
Qed.

Lemma spawn_times_spawnAcc (k : nat) : forall i draws s,
  small_double (spawnAcc s) -> 0 <= spawnDelay s ->
  (inject_Z (Z.of_nat k) * inject_Z (spawnDelay s) <= spawnAcc s)%Q ->
  small_double (spawnAcc (spawn_times k i draws s)) /\
  (spawnAcc (spawn_times k i draws s) ==
   spawnAcc s - inject_Z (Z.of_nat k) * inject_Z (spawnDelay s))%Q.
Proof.
  induction k as [|k IH]; intros i draws s G D A.
  - cbn [spawn_times]. split; [exact G|].
    change (inject_Z (Z.of_nat 0)) with 0%Q. ring.
  - cbn [spawn_times].
    rewrite Nat2Z.inj_succ in *. unfold Z.succ in *.
    rewrite inject_Z_plus in *. change (inject_Z 1) with 1%Q in *.
    assert (K : (0 <= inject_Z (Z.of_nat k))%Q).
    { change 0%Q with (inject_Z 0). rewrite <- Zle_Qle. lia. }
    assert (D' : (0 <= inject_Z (spawnDelay s))%Q).
    { change 0%Q with (inject_Z 0). rewrite <- Zle_Qle. exact D. }
    assert (C : (inject_Z (spawnDelay s) <= spawnAcc s)%Q).
    { pose proof (Qmult_le_0_compat _ _ K D'). lra. }
    destruct (spawn_step_exact s G D C) as [G1 E1].
    set (s1 := spawnObstacle (draws i)
                 (set_spawnAcc s
                    (fl (spawnAcc s - inject_Z (spawnDelay s))))).
    assert (A1 : spawnAcc s1 = fl (spawnAcc s - inject_Z (spawnDelay s)))
      by reflexivity.
    assert (D1 : spawnDelay s1 = spawnDelay s) by reflexivity.
    destruct (IH (S i) draws s1) as [G2 E2].
    + rewrite A1. exact G1.
    + rewrite D1. exact D.
    + rewrite A1, D1, E1. lra.
    + split; [exact G2|]. rewrite E2, A1, D1, E1. ring.
Qed.

(** When the loop returns it has made some number [k] of spawns, the
    accumulator is below the interval, and is not negative if it was not
    or if a spawn was made. *)
Lemma spawn_loop_some (fuel : nat) : forall i draws s s',
  spawn_loop fuel i draws s = Some s' ->
  exists k, (k <= fuel)%nat /\ s' = spawn_times k i draws s /\
            (spawnAcc s' < inject_Z (spawnDelay s))%Q /\
            ((0 <= spawnAcc s)%Q \/ (0 < k)%nat -> (0 <= spawnAcc s')%Q).
Proof.
  induction fuel as [|fuel IH]; intros i draws s s'; cbn [spawn_loop];
    destruct (Qle_bool (inject_Z (spawnDelay s)) (spawnAcc s)) eqn:C;
    intro H; try discriminate.
  - injection H as <-. exists 0%nat. repeat split; try lia.
    + apply Qle_bool_false. exact C.
    + intros [N|N]; [exact N|lia].
  - apply IH in H. destruct H as (k & K & E & U & L).
    exists (S k). split; [lia|]. split; [exact E|].
    split; [exact U|]. intros _. apply L. left.
    cbn [spawnObstacle set_obstacles set_spawnAcc spawnAcc].
    apply fl_nonneg. apply Qle_bool_iff in C. lra.
  - injection H as <-. exists 0%nat. repeat split; try lia.
    + apply Qle_bool_false. exact C.
    + intros [N|N]; [exact N|lia].
Qed.

(** The same for an accumulator that holds a double below 2^53: no turn
    of the loop rounds, so the accumulator ends as what it was less [k]
    intervals. *)
Lemma spawn_loop_doubles (fuel : nat) : forall i draws s s',
  small_double (spawnAcc s) -> 0 <= spawnDelay s ->
  spawn_loop fuel i draws s = Some s' ->
  exists k, (k <= fuel)%nat /\ s' = spawn_times k i draws s /\
            small_double (spawnAcc s') /\
            (spawnAcc s' ==
             spawnAcc s - inject_Z (Z.of_nat k) * inject_Z (spawnDelay s))%Q /\
            (spawnAcc s' < inject_Z (spawnDelay s))%Q.
Proof.
  induction fuel as [|fuel IH]; intros i draws s s' G D; cbn [spawn_loop];
    destruct (Qle_bool (inject_Z (spawnDelay s)) (spawnAcc s)) eqn:C;
    intro H; try discriminate.
  - injection H as <-. exists 0%nat. cbn [spawn_times].
    split; [lia|]. split; [reflexivity|]. split; [exact G|].
    split; [change (inject_Z (Z.of_nat 0)) with 0%Q; ring|].
    apply Qle_bool_false. exact C.
  - apply Qle_bool_iff in C.
    destruct (spawn_step_exact s G D C) as [G1 E1].
    set (s1 := spawnObstacle (draws i)
                 (set_spawnAcc s
                    (fl (spawnAcc s - inject_Z (spawnDelay s))))) in *.
    assert (A1 : spawnAcc s1 = fl (spawnAcc s - inject_Z (spawnDelay s)))
      by reflexivity.
    assert (D1 : spawnDelay s1 = spawnDelay s) by reflexivity.
    destruct (IH (S i) draws s1 s') as (k & K & E & G2 & E2 & U).
    + rewrite A1. exact G1.
    + rewrite D1. exact D.
    + exact H.
    + exists (S k). split; [lia|]. split; [exact E|]. split; [exact G2|].
      rewrite D1 in *. split; [|exact U].
      rewrite E2, A1, E1, Nat2Z.inj_succ. unfold Z.succ.
      rewrite inject_Z_plus. change (inject_Z 1) with 1%Q. ring.
  - injection H as <-. exists 0%nat. cbn [spawn_times].
    split; [lia|]. split; [reflexivity|]. split; [exact G|].
    split; [change (inject_Z (Z.of_nat 0)) with 0%Q; ring|].
    apply Qle_bool_false. exact C.
Qed.

(** The loop returns as soon as the fuel covers the intervals contained
    in the accumulator. *)
Lemma spawn_loop_returns (k : nat) : forall fuel i draws s,
  small_double (spawnAcc s) ->
  (0 < spawnDelay s)%Z ->
  (spawnAcc s < inject_Z (Z.of_nat k + 1) * inject_Z (spawnDelay s))%Q ->
  (k <= fuel)%nat ->
  exists s', spawn_loop fuel i draws s = Some s'.
Proof.
  induction k as [|k IH]; intros fuel i draws s G D A F.
  - assert (C : Qle_bool (inject_Z (spawnDelay s)) (spawnAcc s) = false).
    { apply Qle_bool_false.
      change (inject_Z (Z.of_nat 0 + 1)) with 1%Q in A. lra. }
    exists s. destruct fuel; cbn [spawn_loop]; rewrite C; reflexivity.
  - destruct fuel as [|fuel]; [lia|]. cbn [spawn_loop].
    destruct (Qle_bool (inject_Z (spawnDelay s)) (spawnAcc s)) eqn:C.
    + apply Qle_bool_iff in C.
      destruct (spawn_step_exact s G ltac:(lia) C) as [G1 E1].
      apply IH; [exact G1|exact D| |lia].
      rewrite Nat2Z.inj_succ in A. unfold Z.succ in A.
      rewrite !inject_Z_plus in A. rewrite inject_Z_plus.
      change (inject_Z 1) with 1%Q in *.
      cbn [spawnAcc spawnDelay spawnObstacle set_spawnAcc set_obstacles].
      rewrite E1. lra.
    + exists s. reflexivity.
Qed.

Lemma fresh_pairs_paired (draws : nat -> draw) (s : scene) (js : list nat) :
  paired (flat_map (fun j => map group_defaults (spawn_pair (draws j) s))
            js).
Proof.
  induction js as [|j js IH]; simpl.
  - exact I.
  - split; [|exact IH]. unfold twin. simpl. repeat split.
Qed.

Lemma fresh_pairs_inside (draws : nat -> draw) (s : scene) (js : list nat) :
  exited_pairs
    (flat_map (fun j => map group_defaults (spawn_pair (draws j) s)) js)
  = 0%nat.
Proof.
  induction js as [|j js IH]; simpl.
  - reflexivity.
  - exact IH.
Qed.

Lemma fresh_pairs_length (draws : nat -> draw) (s : scene) (js : list nat) :
  length (flat_map (fun j => map group_defaults (spawn_pair (draws j) s)) js)
  = (2 * length js)%nat.
Proof.
  induction js as [|j js IH]; [reflexivity|].
  cbn [flat_map]. rewrite length_app, IH. cbn [length]. unfold spawn_pair.
  cbn [map length]. lia.
Qed.

(** ** The shape of a frame *)

Lemma frame_end_unfold (s : scene) :
  frame_end s =
  let s2 := set_obstacles
              (Nat.iter (count_scoring (obstacles s)) score_event s)
              (fst (sweep (obstacles s) s)) in
  if Qlt_bool (player_y (player s)) (-40) then onGameOver s2 else s2.
Proof.
  unfold frame_end.
  pose proof (sweep_snd (obstacles s) s) as S.
  destruct (sweep (obstacles s) s) as [kept s1]. simpl in S. subst s1.
  cbv zeta.
  pose proof (iter_score_event_fields (count_scoring (obstacles s)) s) as F.
  cbv zeta in F. destruct F as (_ & _ & _ & _ & _ & F & _).
  simpl. rewrite F. reflexivity.
Qed.

(** A frame of a running game: some number [k] of spawns, then the
    sweep. *)
Lemma update_playing (fuel : nat) (delta : Q) (draws : nat -> draw)
    (s s' : scene) :
  gameOverShown s = false ->
  update fuel delta draws s = Some s' ->
  exists k,
    (k <= fuel)%nat /\
    s' = frame_end (spawn_times k 0 draws (frame_begin delta s)) /\
    (spawnAcc (spawn_times k 0 draws (frame_begin delta s))
       < inject_Z (spawnDelay s))%Q /\
    ((0 <= spawnAcc s + delta)%Q ->
     (0 <= spawnAcc (spawn_times k 0 draws (frame_begin delta s)))%Q).
Proof.
  intros G. unfold update. rewrite G.
  destruct (spawn_loop fuel 0 draws (frame_begin delta s)) as [s3|] eqn:L;
    simpl; [|discriminate].
  intro H. injection H as <-.
  apply spawn_loop_some in L. destruct L as (k & K & E & U & N).
  exists k. subst s3. split; [exact K|]. split; [reflexivity|].
  assert (D : spawnDelay (frame_begin delta s) = spawnDelay s).
  { unfold frame_begin, price_tick. destruct (Qle_bool _ _); reflexivity. }
  assert (A : spawnAcc (frame_begin delta s) = fl (spawnAcc s + delta)).
  { unfold frame_begin, price_tick. destruct (Qle_bool _ _); reflexivity. }
  rewrite D in U. split; [exact U|].
  intro P. apply N. left. rewrite A. apply fl_nonneg. exact P.
Qed.

Lemma frame_begin_frame (delta : Q) (s : scene) :
  session_of (frame_begin delta s) = session_of s /\
  obstacles (frame_begin delta s) = obstacles s /\
  scoreText (frame_begin delta s) = scoreText s /\
  spawnAcc (frame_begin delta s) = fl (spawnAcc s + delta).
Proof.
  unfold frame_begin, price_tick.
  destruct (Qle_bool _ _); repeat split.
Qed.

(** ** Invariants of the session *)

Lemma score_event_ramp (s : scene) : ramp_inv s -> ramp_inv (score_event s).
Proof.
  unfold ramp_inv, score_event. cbn [speed spawnDelay score].
  intros [H1 H2]. rewrite H1, H2. split; lia.
Qed.

Lemma iter_score_event_ramp (n : nat) (s : scene) :
  ramp_inv s -> ramp_inv (Nat.iter n score_event s).
Proof.
  intro H. induction n as [|n IH]; [exact H|].
  rewrite Nat.iter_succ. apply score_event_ramp. exact IH.
Qed.

Lemma onGameOver_inv (s : scene) : scene_inv s -> scene_inv (onGameOver s).
Proof.
  intros [R S T A P O F V]. unfold onGameOver.
  destruct (gameOverShown s) eqn:G.
  - constructor; try assumption; rewrite G; assumption.
  - constructor; simpl; try assumption.
    + apply paired_map; [exact twin_freeze|exact P].
    + rewrite O. reflexivity.
    + intros _. apply Forall_forall. intros o I.
      apply in_map_iff in I. destruct I as (o0 & <- & _).
      split; reflexivity.
Qed.

Lemma frame_end_inv (s : scene) :
  gameOverShown s = false -> scene_inv s -> scene_inv (frame_end s).
Proof.
  intros G [R S T A P O F V]. rewrite frame_end_unfold. cbv zeta.
  set (n := count_scoring (obstacles s)).
  pose proof (iter_score_event_fields n s) as X. cbv zeta in X.
  destruct X as (X1 & X2 & X3 & X4 & _ & _ & _ & X8 & _).
  assert (J : scene_inv
                (set_obstacles (Nat.iter n score_event s)
                   (fst (sweep (obstacles s) s)))).
  { constructor; simpl.
    - apply iter_score_event_ramp. exact R.
    - rewrite X1. lia.
    - rewrite X1, X2. destruct (Nat.eqb_spec n 0) as [->|_]; [|reflexivity].
      rewrite T. simpl. lia.
    - rewrite X8. exact A.
    - apply (sweep_paired _ P).
    - rewrite X3, X4, G. rewrite G in O. exact O.
    - rewrite X3, G. discriminate.
    - rewrite X1. unfold n.
      rewrite (proj1 (proj2 (sweep_paired _ P s))), Nat2Z.inj_mul.
      rewrite Z.even_add_mul_2. exact V. }
  destruct (Qlt_bool _ _); [apply onGameOver_inv|]; exact J.
Qed.

Lemma update_inv (fuel : nat) (delta : Q) (draws : nat -> draw)
    (s s' : scene) :
  (0 <= delta)%Q -> scene_inv s ->
  update fuel delta draws s = Some s' -> scene_inv s'.
Proof.
  intros D I U. destruct (gameOverShown s) eqn:G.
  - unfold update in U. rewrite G in U. injection U as <-. exact I.
  - destruct (update_playing _ _ _ _ _ G U) as (k & _ & -> & _ & N).
    destruct I as [R S T A P O F V].
    destruct (frame_begin_frame delta s) as (B1 & B2 & B3 & B4).
    pose proof (spawn_times_frame k 0 draws (frame_begin delta s)) as X.
    cbv zeta in X. destruct X as (X1 & _ & _ & _ & X5 & _).
    rewrite B1 in X1. unfold session_of in X1.
    injection X1 as E1 E2 E3 E4 E5.
    apply frame_end_inv; [rewrite E4; exact G|].
    constructor.
    + unfold ramp_inv. rewrite E1, E2, E3. exact R.
    + rewrite E1. exact S.
    + rewrite X5, B3, E1. exact T.
    + apply N. lra.
    + rewrite spawn_times_obstacles, B2.
      apply paired_app; [exact P|apply fresh_pairs_paired].
    + rewrite E4, E5, G. rewrite G in O. exact O.
    + rewrite E4, G. discriminate.
    + rewrite E1. exact V.
Qed.

Lemma exec_inv (ev : event) (s s' : scene) :
  scene_inv s -> exec ev s = Some s' -> scene_inv s'.
Proof.
  intro I. destruct ev as [fuel delta draws| | o | |dt p| ]; simpl.
  - destruct (Qle_bool 0 delta) eqn:D; [|discriminate].
    apply Qle_bool_iff in D. apply update_inv; assumption.
  - intro H. injection H as <-. unfold tryJump.
    destruct (gameOverShown s); [exact I|].
    destruct (_ || _); [|exact I].
    destruct I as [R S T A P O F V]. constructor; assumption.
  - intro H. injection H as <-. destruct I as [R S T A P O F V].
    destruct o as [|ok|ok [|[|p]]]; constructor; assumption.
  - intro H. injection H as <-. apply onGameOver_inv. exact I.
  - destruct (Qle_bool 0 dt); [|discriminate].
    intro H. injection H as <-. destruct I as [R S T A P O F V].
    constructor; simpl; try assumption.
    + apply paired_map; [exact (twin_advance dt)|exact P].
    + intro G. specialize (F G). apply Forall_forall. intros o J.
      apply in_map_iff in J. destruct J as (o0 & <- & J).
      rewrite Forall_forall in F. exact (F o0 J).
  - destruct (gameOverShown s); [|discriminate].
    intro H. injection H as <-.
    constructor; simpl;
      first [reflexivity | lia | discriminate | exact Logic.I
            | split; reflexivity].
Qed.

Lemma reachable_inv (s : scene) : reachable s -> scene_inv s.
Proof.
  revert s. apply invariant_reachable.
  - constructor; simpl;
      first [reflexivity | lia | discriminate | exact Logic.I
            | split; reflexivity].
  - exact exec_inv.
Qed.

(** ** Difficulty *)

Lemma after_events_closed (n : nat) :
  score (after_events n) = Z.of_nat n /\
  speed (after_events n) = Z.min (180 + 8 * Z.of_nat n) 420 /\
  spawnDelay (after_events n) = Z.max (1200 - 10 * Z.of_nat n) 885.
Proof.
  unfold after_events.
  assert (R : ramp_inv (Nat.iter n score_event init)).
  { apply iter_score_event_ramp. split; reflexivity. }
  pose proof (iter_score_event_fields n init) as F. cbv zeta in F.
  destruct F as (F & _). change (score init) with 0 in F.
  destruct R as [R1 R2]. rewrite R1, R2, F.
  repeat split; f_equal; lia.
Qed.

Lemma onGameOver_frame (s : scene) :
  score (onGameOver s) = score s /\ speed (onGameOver s) = speed s /\
  spawnDelay (onGameOver s) = spawnDelay s /\
  spawnAcc (onGameOver s) = spawnAcc s /\
  length (obstacles (onGameOver s)) = length (obstacles s) /\
  map ox (obstacles (onGameOver s)) = map ox (obstacles s).
Proof.
  unfold onGameOver. destruct (gameOverShown s); simpl.
  - repeat split.
  - rewrite length_map, map_map. repeat split.
Qed.

(** The score never goes down between two callbacks of one session. *)
Lemma exec_score (ev : event) (s s' : scene) :
  is_restart ev = false -> exec ev s = Some s' -> score s <= score s'.
Proof.
  destruct ev as [fuel delta draws| | o | |dt p| ]; simpl; intros N H;
    try discriminate; try (injection H as <-).
  - destruct (Qle_bool 0 delta); [|discriminate].
    destruct (gameOverShown s) eqn:G.
    + unfold update in H. rewrite G in H. injection H as <-. lia.
    + destruct (update_playing _ _ _ _ _ G H) as (k & _ & -> & _).
      rewrite frame_end_unfold. cbv zeta.
      set (s3 := spawn_times k 0 draws (frame_begin delta s)).
      pose proof (iter_score_event_fields
                    (count_scoring (obstacles s3)) s3) as F.
      cbv zeta in F. destruct F as (F & _).
      assert (E : score s3 = score s).
      { pose proof (spawn_times_frame k 0 draws (frame_begin delta s)) as X.
        cbv zeta in X. destruct X as (X & _).
        destruct (frame_begin_frame delta s) as (B & _).
        rewrite B in X. unfold session_of in X. injection X as X _ _ _ _.
        exact X. }
      destruct (Qlt_bool _ _);
        [rewrite (proj1 (onGameOver_frame _))|]; simpl; lia.
  - unfold tryJump. destruct (gameOverShown s); [lia|].
    destruct (_ || _); simpl; lia.
  - destruct o as [|ok|ok [|[|p]]]; simpl; lia.
  - unfold onGameOver. destruct (gameOverShown s); simpl; lia.
  - destruct (Qle_bool 0 dt); [|discriminate]. injection H as <-.
    simpl. lia.
Qed.

(** C9.  In every reachable state the scroll speed is
    [min (180 + 8 * score) 420] and the spawn interval is
    [max (1200 - 10 * score) 885]; [create] establishes this at score 0
    and a scoring event keeps it. *)
Theorem difficulty_of_score (s : scene) :
  reachable s ->
  (speed s = Z.min (180 + 8 * score s) 420 /\
   spawnDelay s = Z.max (1200 - 10 * score s) 885) /\
  (score init = 0 /\ speed init = 180 /\ spawnDelay init = 1200) /\
  (score (score_event s) = score s + 1 /\
   speed (score_event s) = Z.min (180 + 8 * (score s + 1)) 420 /\
   spawnDelay (score_event s) = Z.max (1200 - 10 * (score s + 1)) 885).
Proof.
  intro R. apply reachable_inv in R. destruct R as [R _ _ _ _ _ _ _].
  split; [exact R|]. split; [repeat split|].
  split; [reflexivity|]. exact (score_event_ramp s R).
Qed.

Lemma difficulty_of_score_witness :
  let s := state_after seven_frames in
  score s = 2 /\ speed s = 196 /\ spawnDelay s = 1180.
Proof.
  cbv zeta.
  assert (R : reachable (state_after seven_frames)).
  { apply (reachable_run seven_frames init _ reach_init).
    vm_compute. reflexivity. }
  destruct (difficulty_of_score (state_after seven_frames) R)
    as ((H1 & H2) & _).
  assert (S : score (state_after seven_frames) = 2)
    by (vm_compute; reflexivity).
  rewrite S in H1, H2. repeat split; assumption.
Defined.

(** C4.  A scoring event adds 8 to the speed up to the cap of 420 and
    takes 10 off the spawn interval down to the floor of 885; between two
    callbacks of a session the speed never decreases and the interval
    never increases; ten events after [create] give speed 260 and
    interval 1100, the cap is first reached at 30 events and the floor at
    32. *)
Theorem difficulty_ramp (ev : event) (s s' : scene) :
  reachable s -> is_restart ev = false -> exec ev s = Some s' ->
  (speed (score_event s) = Z.min (speed s + 8) 420 /\
   spawnDelay (score_event s) = Z.max (spawnDelay s - 10) 885) /\
  (speed s <= speed (score_event s) <= 420 /\
   885 <= spawnDelay (score_event s) <= spawnDelay s) /\
  (speed s <= speed s' <= 420 /\ 885 <= spawnDelay s' <= spawnDelay s) /\
  (speed (after_events 10) = 260 /\ spawnDelay (after_events 10) = 1100) /\
  (forall n, speed (after_events n) = 420 <-> (30 <= n)%nat) /\
  (forall n, spawnDelay (after_events n) = 885 <-> (32 <= n)%nat).
Proof.
  intros R N E.
  pose proof (exec_score ev s s' N E) as M.
  assert (R' : reachable s') by exact (reach_step ev s s' R E).
  apply reachable_inv in R, R'.
  destruct R as [[R1 R2] _ _ _ _ _ _ _], R' as [[R1' R2'] _ _ _ _ _ _ _].
  split; [split; reflexivity|].
  split; [cbn [score_event speed spawnDelay]; lia|].
  split; [lia|].
  split; [split; reflexivity|].
  split; intro n; destruct (after_events_closed n) as (_ & A1 & A2);
    [rewrite A1|rewrite A2]; lia.
Qed.

Lemma difficulty_ramp_witness :
  let s := state_after first_exit in
  let s' := state_after seven_frames in
  exec seventh_update s = Some s' /\
  (speed s = 180 /\ speed s' = 196 /\ speed s <= speed s') /\
  (spawnDelay s = 1200 /\ spawnDelay s' = 1180 /\
   spawnDelay s' <= spawnDelay s).
Proof.
  cbv zeta.
  assert (R : reachable (state_after first_exit)).
  { apply (reachable_run first_exit init _ reach_init).
    vm_compute. reflexivity. }
  assert (E : exec seventh_update (state_after first_exit)
              = Some (state_after seven_frames))
    by (vm_compute; reflexivity).
  destruct (difficulty_ramp seventh_update (state_after first_exit)
              (state_after seven_frames) R eq_refl E)
    as (_ & _ & (M1 & M2) & _).
  split; [exact E|].
  repeat split;
    first [apply M1 | apply M2 | vm_compute; reflexivity].
Defined.

(** ** Game over *)

Lemma rests_at_freeze (l : list obstacle) :
  Forall2 rests_at l (map freeze l).
Proof.
  induction l as [|o l IH]; simpl; constructor; [|exact IH].
  unfold rests_at. simpl. repeat split; reflexivity.
Qed.

Lemma rests_at_advance (dt : Q) (l0 l : list obstacle) :
  Forall2 rests_at l0 l -> Forall2 rests_at l0 (map (advance dt) l).
Proof.
  induction 1 as [|o0 o l0 l (VX & VY & X & Y) _ IH]; simpl;
    constructor; [|exact IH].
  unfold rests_at. simpl. rewrite VX, VY.
  repeat split; try reflexivity.
  - rewrite <- X. unfold Qdiv. ring.
  - rewrite <- Y. unfold Qdiv. ring.
Qed.

Lemma game_over_quiet (s : scene) :
  gameOverShown s = true ->
  tryJump s = s /\ onGameOver s = s /\
  forall fuel delta draws, update fuel delta draws s = Some s.
Proof.
  intro G. unfold tryJump, onGameOver, update. rewrite G.
  repeat split.
Qed.

Lemma exec_game_over (ev : event) (l0 : list obstacle) (s s' : scene) :
  gameOverShown s = true -> Forall2 rests_at l0 (obstacles s) ->
  is_restart ev = false -> exec ev s = Some s' ->
  gameplay_of s' = gameplay_of s /\ Forall2 rests_at l0 (obstacles s').
Proof.
  intros G F N.
  destruct (game_over_quiet s G) as (J & O & U).
  destruct ev as [fuel delta draws| | o | |dt p| ]; simpl; intro H;
    try discriminate.
  - destruct (Qle_bool 0 delta); [|discriminate].
    rewrite U in H. injection H as <-. split; [reflexivity|exact F].
  - rewrite J in H. injection H as <-. split; [reflexivity|exact F].
  - injection H as <-.
    destruct o as [|ok|ok [|[|p]]]; (split; [reflexivity|exact F]).
  - rewrite O in H. injection H as <-. split; [reflexivity|exact F].
  - destruct (Qle_bool 0 dt); [|discriminate]. injection H as <-.
    split; [reflexivity|]. simpl. apply rests_at_advance. exact F.
Qed.

Lemma run_game_over (evs : list event) :
  forall (l0 : list obstacle) (s s' : scene),
  gameOverShown s = true -> Forall2 rests_at l0 (obstacles s) ->
  forallb (fun ev => negb (is_restart ev)) evs = true ->
  run evs s = Some s' ->
  gameplay_of s' = gameplay_of s /\ Forall2 rests_at l0 (obstacles s').
Proof.
  induction evs as [|ev evs IH]; simpl; intros l0 s s' G F N H.
  - injection H as <-. split; [reflexivity|exact F].
  - apply andb_true_iff in N. destruct N as [N1 N2].
    apply negb_true_iff in N1.
    destruct (exec ev s) as [s1|] eqn:E; [|discriminate].
    destruct (exec_game_over ev l0 s s1 G F N1 E) as [P1 F1].
    assert (G1 : gameOverShown s1 = true).
    { unfold gameplay_of, session_of in P1. injection P1 as _ _ _ P _ _ _ _.
      rewrite P. exact G. }
    destruct (IH l0 s1 s' G1 F1 N2 H) as [P2 F2].
    split; [rewrite P2; exact P1|exact F2].
Qed.

(** C6.  Entering game over sets the flag, brings every obstacle to rest
    and adds the overlay.  From any reachable state in which the flag is
    set, and as long as the scene is not restarted: the flag stays set;
    jump requests, frame updates and further game-over triggers change
    nothing; the overlay is the single one created on entry; score,
    difficulty and both accumulators stay as they were; every obstacle
    has velocity zero and stays where it is. *)
Theorem game_over_latch (s : scene) (evs : list event) (s' : scene) :
  reachable s -> gameOverShown s = true ->
  forallb (fun ev => negb (is_restart ev)) evs = true ->
  run evs s = Some s' ->
  (forall s0, gameOverShown s0 = false ->
     gameOverShown (onGameOver s0) = true /\
     obstacles (onGameOver s0) = map freeze (obstacles s0) /\
     overlay (onGameOver s0) =
       overlay s0 ++ [GameOverText (score s0); RestartPrompt;
                      RestartBlocker]) /\
  gameOverShown s' = true /\
  tryJump s' = s' /\
  (forall fuel delta draws, update fuel delta draws s' = Some s') /\
  onGameOver s' = s' /\
  (overlay s = [GameOverText (score s); RestartPrompt; RestartBlocker] /\
   overlay s' = overlay s) /\
  (score s' = score s /\ scoreText s' = scoreText s /\
   speed s' = speed s /\ spawnDelay s' = spawnDelay s /\
   spawnAcc s' = spawnAcc s /\ priceAcc s' = priceAcc s) /\
  (Forall frozen (obstacles s) /\
   Forall2 rests_at (obstacles s) (obstacles s')).
Proof.
  intros R G N H.
  split.
  { intros s0 G0. unfold onGameOver. rewrite G0. repeat split. }
  apply reachable_inv in R.
  pose proof (inv_overlay s R) as O. rewrite G in O.
  pose proof (inv_frozen s R G) as F.
  assert (F0 : Forall2 rests_at (obstacles s) (obstacles s)).
  { clear - F. induction F as [|o l [VX VY] _ IH]; constructor;
      [|exact IH].
    unfold rests_at. repeat split; try assumption; reflexivity. }
  destruct (run_game_over evs _ _ _ G F0 N H) as [P F'].
  unfold gameplay_of, session_of in P.
  injection P as P1 P2 P3 P4 P5 P6 P7 P8.
  rewrite G in P4.
  split; [exact P4|].
  destruct (game_over_quiet s' P4) as (J & OG & U).
  repeat split; assumption.
Qed.

Lemma game_over_latch_witness :
  let s := state_from [EvOverlap] (state_after two_pairs_on_screen) in
  let s' := state_from late_events s in
  run late_events s = Some s' /\
  gameOverShown s' = true /\
  overlay s' = [GameOverText 0; RestartPrompt; RestartBlocker] /\
  length (obstacles s') = 4%nat /\
  Forall2 rests_at (obstacles s) (obstacles s').
Proof.
  cbv zeta.
  set (s := state_from [EvOverlap] (state_after two_pairs_on_screen)).
  assert (R : reachable s).
  { apply (reachable_run (two_pairs_on_screen ++ [EvOverlap]) init _
             reach_init).
    vm_compute. reflexivity. }
  assert (G : gameOverShown s = true) by (vm_compute; reflexivity).
  assert (E : run late_events s = Some (state_from late_events s))
    by (vm_compute; reflexivity).
  destruct (game_over_latch s late_events _ R G eq_refl E)
    as (_ & L1 & _ & _ & _ & (L5 & L5') & _ & _ & L7).
  assert (S : score s = 0) by (vm_compute; reflexivity).
  rewrite S in L5. rewrite L5 in L5'.
  split; [exact E|]. split; [exact L1|]. split; [exact L5'|].
  split; [|exact L7].
  rewrite <- (Forall2_length L7). vm_compute. reflexivity.
Defined.

(** ** The spawn accumulator *)

Lemma inject_Z_pos (d : Z) : 0 < d -> (0 < inject_Z d)%Q.
Proof. intro D. unfold Qlt. simpl. lia. Qed.

Lemma full_intervals_bounds (a : Q) (d : Z) :
  0 < d -> (0 <= a)%Q ->
  (inject_Z (Z.of_nat (full_intervals a d)) * inject_Z d <= a)%Q /\
  (a < inject_Z (Z.of_nat (full_intervals a d) + 1) * inject_Z d)%Q.
Proof.
  intros D A. unfold full_intervals.
  assert (Dq : (0 < inject_Z d)%Q) by (apply inject_Z_pos; exact D).
  assert (Dn : ~ (inject_Z d == 0)%Q) by (intro E; rewrite E in Dq; lra).
  set (q := (a / inject_Z d)%Q).
  assert (Eq : (q * inject_Z d == a)%Q).
  { unfold q. unfold Qdiv. rewrite <- Qmult_assoc.
    rewrite (Qmult_comm (/ inject_Z d)), Qmult_inv_r by exact Dn. ring. }
  assert (Q0 : (0 <= q)%Q).
  { unfold q. apply Qle_shift_div_l; [exact Dq|]. lra. }
  assert (F0 : 0 <= Qfloor q).
  { change 0 with (Qfloor 0). apply Qfloor_resp_le. exact Q0. }
  rewrite Z2Nat.id by exact F0.
  split.
  - rewrite <- Eq. apply Qmult_le_compat_r; [apply Qfloor_le|lra].
  - rewrite <- Eq at 1. apply Qmult_lt_compat_r; [exact Dq|].
    apply Qlt_floor.
Qed.

Lemma intervals_unique (a : Q) (d : Z) (k1 k2 : nat) :
  0 < d ->
  (inject_Z (Z.of_nat k1) * inject_Z d <= a)%Q ->
  (a < inject_Z (Z.of_nat k2 + 1) * inject_Z d)%Q ->
  (k1 <= k2)%nat.
Proof.
  intros D L U.
  assert (Dq : (0 < inject_Z d)%Q) by (apply inject_Z_pos; exact D).
  assert (H : (inject_Z (Z.of_nat k1) * inject_Z d
               < inject_Z (Z.of_nat k2 + 1) * inject_Z d)%Q)
    by (eapply Qle_lt_trans; eassumption).
  apply Qmult_lt_r in H; [|exact Dq].
  rewrite <- Zlt_Qlt in H. lia.
Qed.

Lemma spawn_pair_frame_begin (d : draw) (delta : Q) (s : scene) :
  spawn_pair d (frame_begin delta s) = spawn_pair d s.
Proof.
  unfold frame_begin, price_tick. destruct (Qle_bool _ _); reflexivity.
Qed.

(** The spawn loop of a frame makes exactly [full_intervals] spawns. *)
Lemma spawn_loop_exact (fuel : nat) (delta : Q) (draws : nat -> draw)
    (s : scene) :
  0 < spawnDelay s -> (0 <= spawnAcc s + delta)%Q ->
  (spawnAcc s + delta <= inject_Z (2 ^ 52))%Q ->
  (full_intervals (fl (spawnAcc s + delta)) (spawnDelay s) <= fuel)%nat ->
  spawn_loop fuel 0 draws (frame_begin delta s) =
  Some (spawn_times (full_intervals (fl (spawnAcc s + delta)) (spawnDelay s))
          0 draws (frame_begin delta s)).
Proof.
  intros D A B F.
  set (a := fl (spawnAcc s + delta)) in *.
  set (k := full_intervals a (spawnDelay s)) in *.
  pose proof (fl_small_double _ A B) as G. fold a in G.
  pose proof (small_double_nonneg _ G) as A0.
  destruct (full_intervals_bounds _ _ D A0) as [L U]. fold k in L, U.
  destruct (frame_begin_frame delta s) as (B1 & _ & _ & B4). fold a in B4.
  assert (Bd : spawnDelay (frame_begin delta s) = spawnDelay s).
  { unfold session_of in B1. injection B1 as _ _ Bd _ _. exact Bd. }
  destruct (spawn_loop_returns k fuel 0 draws (frame_begin delta s))
    as [s3 E];
    [rewrite B4; exact G|rewrite Bd; exact D|rewrite Bd, B4; exact U
    |exact F|].
  rewrite E. f_equal.
  destruct (spawn_loop_doubles fuel 0 draws (frame_begin delta s) s3)
    as (k' & _ & -> & G' & S & U');
    [rewrite B4; exact G|rewrite Bd; lia|exact E|].
  pose proof (small_double_nonneg _ G') as L'.
  rewrite Bd, B4 in S. rewrite Bd in U'. rewrite S in U', L'.
  assert (K1 : (k' <= k)%nat).
  { apply (intervals_unique a (spawnDelay s)); [exact D| lra | exact U]. }
  assert (K2 : (k <= k')%nat).
  { apply (intervals_unique a (spawnDelay s)); [exact D| exact L |].
    rewrite inject_Z_plus. change (inject_Z 1) with 1%Q. lra. }
  f_equal. lia.
Qed.

Lemma frame_end_spawnAcc (s : scene) : spawnAcc (frame_end s) = spawnAcc s.
Proof.
  rewrite frame_end_unfold. cbv zeta.
  pose proof (iter_score_event_fields (count_scoring (obstacles s)) s) as F.
  cbv zeta in F. destruct F as (_ & _ & _ & _ & _ & _ & _ & F & _).
  destruct (Qlt_bool _ _);
    [rewrite (proj1 (proj2 (proj2 (proj2 (onGameOver_frame _)))))|];
    exact F.
Qed.

(** C7.  A frame of a running game adds [delta] to the spawn accumulator
    and then spawns once per full spawn interval contained in it, taking
    the interval off per spawn.  The sum is the sum of doubles, [a]; it is
    the sum of the numbers whenever that is a double.  With [k] the number
    of full intervals in [a], the update (given fuel for [k] iterations)
    returns, has made exactly [k] spawns of one candle pair each, and
    leaves the accumulator at [a - k * spawnDelay], which lies in
    [[0, spawnDelay)]: the remainder of [a] modulo the interval, with no
    rounding in the subtractions.  The accumulator is taken to stay
    within 2^52 milliseconds, where a whole interval taken off a double
    leaves a double. *)
Theorem spawn_accumulator (fuel : nat) (delta : Q) (draws : nat -> draw)
    (s : scene) :
  reachable s -> gameOverShown s = false -> (0 <= delta)%Q ->
  (spawnAcc s + delta <= inject_Z (2 ^ 52))%Q ->
  let a := fl (spawnAcc s + delta) in
  let d := inject_Z (spawnDelay s) in
  let k := full_intervals a (spawnDelay s) in
  (k <= fuel)%nat ->
  spawnAcc (frame_begin delta s) = a /\
  (small_double (spawnAcc s + delta) -> (a == spawnAcc s + delta)%Q) /\
  (inject_Z (Z.of_nat k) * d <= a /\ a < inject_Z (Z.of_nat k + 1) * d)%Q /\
  spawn_loop fuel 0 draws (frame_begin delta s)
    = Some (spawn_times k 0 draws (frame_begin delta s)) /\
  obstacles (spawn_times k 0 draws (frame_begin delta s))
    = obstacles s
      ++ flat_map (fun j => map group_defaults (spawn_pair (draws j) s))
           (seq 0 k) /\
  exists s',
    update fuel delta draws s = Some s' /\
    (spawnAcc s' == a - inject_Z (Z.of_nat k) * d)%Q /\
    (0 <= spawnAcc s' /\ spawnAcc s' < d)%Q.
Proof.
  intros R G Dl Bd52 a d k F.
  apply reachable_inv in R. destruct R as [[_ R2] _ _ A _ _ _ _].
  assert (D : 0 < spawnDelay s) by lia.
  assert (A' : (0 <= spawnAcc s + delta)%Q) by lra.
  pose proof (fl_small_double _ A' Bd52) as Ga. fold a in Ga.
  pose proof (small_double_nonneg _ Ga) as A0.
  destruct (full_intervals_bounds _ _ D A0) as [L U].
  pose proof (spawn_loop_exact fuel delta draws s D A' Bd52 F) as E.
  destruct (frame_begin_frame delta s) as (B1 & B2 & _ & B4).
  split; [exact B4|].
  split; [intro Gs; exact (fl_exact _ Gs)|].
  split; [split; [exact L|exact U]|].
  split; [exact E|].
  split.
  { rewrite spawn_times_obstacles, B2. f_equal.
    apply flat_map_ext. intro j. f_equal. apply spawn_pair_frame_begin. }
  exists (frame_end (spawn_times k 0 draws (frame_begin delta s))).
  split.
  { unfold update. rewrite G. fold a k in E. rewrite E. reflexivity. }
  rewrite frame_end_spawnAcc.
  assert (Bd : spawnDelay (frame_begin delta s) = spawnDelay s).
  { unfold session_of in B1. injection B1 as _ _ B _ _. exact B. }
  fold a d k in L, U.
  destruct (spawn_times_spawnAcc k 0 draws (frame_begin delta s))
    as [_ S];
    [rewrite B4; exact Ga|rewrite Bd; lia|rewrite Bd, B4; exact L|].
  rewrite Bd, B4 in S. fold a d in S.
  split; [exact S|]. rewrite S.
  rewrite inject_Z_plus in U. change (inject_Z 1) with 1%Q in U.
  split; lra.
Qed.

(** A frame that took 2.5 seconds: two pairs are spawned at once and 100
    milliseconds are carried over. *)
Lemma spawn_accumulator_witness :
  exists s',
    update 2 2500 sample_draws init = Some s' /\
    (spawnAcc s' == 100)%Q /\ length (obstacles s') = 4%nat.
Proof.
  assert (K : full_intervals (fl (spawnAcc init + 2500)) (spawnDelay init)
              = 2%nat) by (vm_compute; reflexivity).
  assert (F : (full_intervals (fl (spawnAcc init + 2500)) (spawnDelay init)
               <= 2)%nat) by (rewrite K; apply le_n).
  assert (P : (0 <= 2500)%Q) by discriminate.
  assert (B : (spawnAcc init + 2500 <= inject_Z (2 ^ 52))%Q)
    by (vm_compute; discriminate).
  assert (A : fl (spawnAcc init + 2500) = 2500%Q) by (vm_compute; reflexivity).
  destruct (spawn_accumulator 2 2500 sample_draws init reach_init eq_refl
              P B F) as (_ & _ & _ & _ & _ & s' & U & R & _).
  exists s'. split; [exact U|]. split.
  - rewrite R, K, A. reflexivity.
  - vm_compute in U. injection U as <-. reflexivity.
Defined.

(** ** Scoring *)

Lemma paired_candles (l : list obstacle) :
  paired l -> Forall (fun o => _scored o = false /\ owidth o = 26) l.
Proof.
  induction l as [|a|a b l IH] using pairs_ind; simpl; intro P.
  - constructor.
  - contradiction.
  - destruct P as [(_ & _ & S1 & S2 & W1 & W2) P].
    repeat constructor; try assumption. exact (IH P).
Qed.

Lemma count_scoring_unflagged (l : list obstacle) :
  Forall (fun o => _scored o = false /\ owidth o = 26) l ->
  count_scoring l = length (filter past_threshold l).
Proof.
  unfold count_scoring. induction 1 as [|o l [S _] _ IH]; simpl.
  - reflexivity.
  - unfold scores at 1, past_threshold at 1. rewrite S, andb_true_r.
    destruct (Qlt_bool (ox o) (-60)); simpl; rewrite IH; reflexivity.
Qed.

Lemma onGameOver_inside (s : scene) :
  Forall (fun o => (-60 <= ox o)%Q) (obstacles s) ->
  Forall (fun o => (-60 <= ox o)%Q) (obstacles (onGameOver s)).
Proof.
  unfold onGameOver. destruct (gameOverShown s); [exact (fun H => H)|].
  simpl. intro H. apply Forall_forall. intros o I.
  apply in_map_iff in I. destruct I as (o0 & <- & I).
  rewrite Forall_forall in H. exact (H o0 I).
Qed.

(** C1, amended.  In a frame of a running game every candle rectangle
    that is past the threshold ([x < -60], which puts all of its width 26
    left of the viewport) adds exactly one to the score and leaves the
    group in that same frame, so it cannot be counted again: the score
    grows by the number of such rectangles and no rectangle past the
    threshold is left.  Rectangles come in pairs that cross together, so
    every pair past the threshold adds two, and the score of a session is
    always even. *)
Theorem candle_scores_once (fuel : nat) (delta : Q) (draws : nat -> draw)
    (s s' : scene) :
  reachable s -> gameOverShown s = false ->
  update fuel delta draws s = Some s' ->
  let gone := filter past_threshold (obstacles s) in
  score s' = score s + Z.of_nat (length gone) /\
  paired (obstacles s) /\
  length gone = (2 * exited_pairs (obstacles s))%nat /\
  Forall (fun o => _scored o = false /\
                   (ox o + inject_Z (owidth o) / 2 < 0)%Q) gone /\
  Forall (fun o => (-60 <= ox o)%Q) (obstacles s') /\
  Z.even (score s) = true /\
  exists k,
    (length (obstacles s') + length gone
     = length (obstacles s) + 2 * k)%nat.
Proof.
  intros R G U gone.
  apply reachable_inv in R. pose proof (inv_pairs s R) as P.
  pose proof (paired_candles _ P) as C.
  destruct (update_playing _ _ _ _ _ G U) as (k & _ & -> & _).
  destruct (frame_begin_frame delta s) as (B1 & B2 & _).
  set (s3 := spawn_times k 0 draws (frame_begin delta s)).
  set (fresh := flat_map (fun j => map group_defaults
                                       (spawn_pair (draws j)
                                          (frame_begin delta s)))
                        (seq 0 k)).
  assert (O3 : obstacles s3 = obstacles s ++ fresh).
  { unfold s3. rewrite spawn_times_obstacles, B2. reflexivity. }
  assert (Pf : paired fresh) by apply fresh_pairs_paired.
  assert (P3 : paired (obstacles s3))
    by (rewrite O3; apply paired_app; assumption).
  assert (Xf : exited_pairs fresh = 0%nat) by apply fresh_pairs_inside.
  assert (Lf : length fresh = (2 * k)%nat).
  { unfold fresh. rewrite fresh_pairs_length, length_seq. reflexivity. }
  destruct (sweep_paired _ P3 s3) as (_ & N3 & L3).
  destruct (sweep_paired _ P s) as (_ & N & _).
  rewrite O3, exited_pairs_app, Xf, length_app, Lf in L3 by exact P.
  rewrite O3, exited_pairs_app, Xf, Nat.add_0_r in N3 by exact P.
  rewrite <- O3 in N3, L3.
  assert (Eg : length gone = count_scoring (obstacles s))
    by (symmetry; apply count_scoring_unflagged; exact C).
  assert (S3 : score s3 = score s).
  { pose proof (spawn_times_frame k 0 draws (frame_begin delta s)) as X.
    cbv zeta in X. destruct X as (X & _). rewrite B1 in X.
    unfold session_of in X. injection X as X _ _ _ _. exact X. }
  pose proof (iter_score_event_fields (count_scoring (obstacles s3)) s3)
    as F.
  cbv zeta in F. destruct F as (F & _).
  pose proof (sweep_fst_inside (obstacles s3) s3) as In.
  rewrite frame_end_unfold. cbv zeta.
  set (s4 := set_obstacles
               (Nat.iter (count_scoring (obstacles s3)) score_event s3)
               (fst (sweep (obstacles s3) s3))).
  assert (J : score s4 = score s + Z.of_nat (length gone) /\
              Forall (fun o => (-60 <= ox o)%Q) (obstacles s4) /\
              (length (obstacles s4) + length gone
               = length (obstacles s) + 2 * k)%nat).
  { unfold s4. simpl. rewrite F, S3, N3, Eg, N.
    split; [reflexivity|]. split; [exact In|]. lia. }
  destruct J as (J1 & J2 & J3).
  split.
  { destruct (Qlt_bool _ _);
      [rewrite (proj1 (onGameOver_frame s4))|]; exact J1. }
  split; [exact P|]. split; [rewrite Eg; exact N|].
  split.
  { apply Forall_forall. intros o I. apply filter_In in I.
    destruct I as [I T]. rewrite Forall_forall in C.
    destruct (C o I) as [Sc W]. split; [exact Sc|].
    apply Qlt_bool_true in T. rewrite W.
    assert (H : (inject_Z 26 / 2 == 13)%Q) by reflexivity.
    rewrite H. lra. }
  split.
  { destruct (Qlt_bool _ _); [apply onGameOver_inside|]; exact J2. }
  split; [exact (inv_even s R)|].
  exists k.
  destruct (Qlt_bool _ _); [|exact J3].
  destruct (onGameOver_frame s4) as (_ & _ & _ & _ & Ln & _).
  rewrite Ln. exact J3.
Qed.

Lemma candle_scores_once_witness :
  let s := state_after first_exit in
  let s' := state_after seven_frames in
  update 1 1000 sample_draws s = Some s' /\
  length (obstacles s) = 10%nat /\
  score s' = score s + 2 /\
  length (obstacles s') = 8%nat.
Proof.
  cbv zeta.
  assert (R : reachable (state_after first_exit)).
  { apply (reachable_run first_exit init _ reach_init).
    vm_compute. reflexivity. }
  assert (U : update 1 1000 sample_draws (state_after first_exit)
              = Some (state_after seven_frames))
    by (vm_compute; reflexivity).
  assert (G : gameOverShown (state_after first_exit) = false)
    by (vm_compute; reflexivity).
  destruct (candle_scores_once 1 1000 sample_draws
              (state_after first_exit) (state_after seven_frames)
              R G U) as (C1 & _ & _ & _ & _ & _ & k & C6).
  assert (L : length (filter past_threshold
                        (obstacles (state_after first_exit))) = 2%nat)
    by (vm_compute; reflexivity).
  rewrite L in C1.
  split; [exact U|]. split; [vm_compute; reflexivity|].
  split; [exact C1|]. vm_compute. reflexivity.
Defined.

(** C1, as stated, fails.  In the session [first_exit] five pairs are in
    the group, nothing has been scored, and exactly one pair has passed
    the threshold; the update of that frame raises the score by two, not
    by one. *)
Lemma pair_scores_twice :
  let s := state_after first_exit in
  let s' := state_after seven_frames in
  run first_exit init = Some s /\
  update 1 1000 sample_draws s = Some s' /\
  length (obstacles s) = 10%nat /\
  exited_pairs (obstacles s) = 1%nat /\
  score s = 0 /\ score s' = 2 /\
  score s' <> score s + Z.of_nat (exited_pairs (obstacles s)).
Proof.
  cbv zeta.
  split; [vm_compute; reflexivity|].
  split; [vm_compute; reflexivity|].
  split; [vm_compute; reflexivity|].
  split; [vm_compute; reflexivity|].
  split; [vm_compute; reflexivity|].
  split; [vm_compute; reflexivity|].
  vm_compute. discriminate.
Qed.

(** * Further properties *)

(** ** The geometry of a spawn *)



(** ** The obstacle group across a frame *)

Lemma inside_true (o : obstacle) : inside o = true <-> (-60 <= ox o)%Q.
Proof.
  unfold inside, past_threshold. rewrite negb_true_iff.
  apply Qlt_bool_false.
Qed.

Lemma filter_all (A : Type) (f : A -> bool) (l : list A) :
  Forall (fun a => f a = true) l -> filter f l = l.
Proof.
  induction 1 as [|a l H _ IH]; simpl; [reflexivity|].
  rewrite H, IH. reflexivity.
Qed.

(** A sweep over children that are all inside scores nothing and gives
    every child the current scroll velocity. *)
Lemma sweep_all_inside (l : list obstacle) (s : scene) :
  Forall (fun o => inside o = true) l ->
  sweep l s = (map (fun o => set_ovx o (- inject_Z (speed s))) l, s).
Proof.
  induction 1 as [|o l H _ IH]; simpl; [reflexivity|].
  unfold inside, past_threshold in H. apply negb_true_iff in H.
  rewrite H, IH. reflexivity.
Qed.

(** In an ordered group the children past the threshold come first, so
    every child that stays gets the speed as it is after all the scoring
    of the sweep. *)
Lemma sweep_ordered (l : list obstacle) : forall s,
  ordered l ->
  fst (sweep l s) =
  map (fun o => set_ovx o (- inject_Z (speed (snd (sweep l s)))))
    (filter inside l).
Proof.
  induction l as [|o l IH]; intros s O; [reflexivity|].
  destruct O as [F O]. cbn [sweep filter].
  unfold inside at 1, past_threshold at 1.
  destruct (Qlt_bool (ox o) (-60)) eqn:E; cbn [negb].
  - apply IH. exact O.
  - assert (A : Forall (fun b => inside b = true) l).
    { apply Qlt_bool_false in E. revert F. apply Forall_impl.
      intros b L. apply inside_true. lra. }
    rewrite (sweep_all_inside l s A), (filter_all _ _ _ A). reflexivity.
Qed.

Lemma ordered_map (f : obstacle -> obstacle) (l : list obstacle) :
  (forall o, ox (f o) = ox o) -> ordered l -> ordered (map f l).
Proof.
  intro X. induction l as [|a l IH]; simpl; [exact (fun H => H)|].
  intros [F O]. split; [|exact (IH O)].
  rewrite X. apply Forall_forall. intros b I.
  apply in_map_iff in I. destruct I as (b0 & <- & I).
  rewrite X. rewrite Forall_forall in F. exact (F b0 I).
Qed.

Lemma ordered_filter (f : obstacle -> bool) (l : list obstacle) :
  ordered l -> ordered (filter f l).
Proof.
  induction l as [|a l IH]; simpl; [exact (fun H => H)|].
  intros [F O]. destruct (f a); [|exact (IH O)].
  split; [|exact (IH O)].
  apply Forall_forall. intros b I. apply filter_In in I.
  rewrite Forall_forall in F. exact (F b (proj1 I)).
Qed.

Lemma ordered_app (l1 l2 : list obstacle) (x : Q) :
  ordered l1 -> ordered l2 ->
  Forall (fun o => (ox o <= x)%Q) l1 -> Forall (fun o => ox o = x) l2 ->
  ordered (l1 ++ l2).
Proof.
  intros O1 O2 C1 C2. induction l1 as [|a l1 IH]; simpl; [exact O2|].
  destruct O1 as [F O1].
  pose proof (Forall_inv C1) as Ca. pose proof (Forall_inv_tail C1) as Ct.
  split; [|exact (IH O1 Ct)].
  apply Forall_app. split; [exact F|].
  revert C2. apply Forall_impl. intros b ->. exact Ca.
Qed.

Lemma spawn_pair_fields (d : draw) (s : scene) :
  exists top bottom,
    map group_defaults (spawn_pair d s) = [top; bottom] /\
    (ox top = inject_Z (DESIGN_WIDTH + 24) /\
     ox bottom = inject_Z (DESIGN_WIDTH + 24)) /\
    (ovx top = 0%Q /\ ovy top = 0%Q /\ allowGravity top = true) /\
    (ovx bottom = 0%Q /\ ovy bottom = 0%Q /\ allowGravity bottom = true) /\
    ocolor top = candle_colour (priceTrend s) (coin d) /\
    ocolor bottom = candle_colour (priceTrend s) (coin d).
Proof.
  unfold spawn_pair. cbv zeta. cbn [map]. eexists. eexists.
  split; [reflexivity|]. unfold group_defaults.
  cbn [ox ovx ovy allowGravity ocolor]. unfold candle_colour.
  repeat split; destruct (priceTrend s); reflexivity.
Qed.

Lemma fresh_pairs_column (draws : nat -> draw) (s : scene) (js : list nat) :
  let fresh :=
    flat_map (fun j => map group_defaults (spawn_pair (draws j) s)) js in
  Forall (fun o => ox o = inject_Z (DESIGN_WIDTH + 24)) fresh /\
  Forall (fun o => ovx o = 0%Q /\ ovy o = 0%Q /\
                   allowGravity o = true) fresh /\
  Forall (fun o => inside o = true) fresh /\
  ordered fresh.
Proof.
  cbv zeta. induction js as [|j js (I1 & I2 & I3 & I4)]; cbn [flat_map].
  - repeat split; constructor.
  - destruct (spawn_pair_fields (draws j) s)
      as (t & b & -> & (Xt & Xb) & Vt & Vb & _).
    cbn [app].
    assert (In : forall o, ox o = inject_Z (DESIGN_WIDTH + 24) ->
                           inside o = true).
    { intros o E. apply inside_true. rewrite E. discriminate. }
    assert (Le : Forall (fun o => (inject_Z (DESIGN_WIDTH + 24) <= ox o)%Q)
                   (flat_map (fun j => map group_defaults
                                         (spawn_pair (draws j) s)) js)).
    { revert I1. apply Forall_impl. intros o ->. apply Qle_refl. }
    split; [constructor; [exact Xt|constructor; [exact Xb|exact I1]]|].
    split; [constructor; [exact Vt|constructor; [exact Vb|exact I2]]|].
    split; [constructor; [auto|constructor; [auto|exact I3]]|].
    cbn [ordered]. rewrite Xt, Xb.
    split; [constructor; [rewrite Xb; apply Qle_refl|exact Le]|].
    split; [exact Le|exact I4].
Qed.

(** What a frame of a running game does to an ordered group: the
    children past the threshold leave, the spawned pairs are appended,
    and every child gets the scroll velocity of the end of the frame, or
    is brought to rest when the frame ends the game. *)
Lemma frame_end_group (k : nat) (delta : Q) (draws : nat -> draw)
    (s : scene) :
  ordered (obstacles s) ->
  Forall (fun o => (ox o <= inject_Z (DESIGN_WIDTH + 24))%Q) (obstacles s) ->
  gameOverShown s = false ->
  let s' := frame_end (spawn_times k 0 draws (frame_begin delta s)) in
  obstacles s' =
  map (fun o => if gameOverShown s' then freeze o
                else set_ovx o (- inject_Z (speed s')))
    (filter inside (obstacles s)
     ++ flat_map (fun j => map group_defaults (spawn_pair (draws j) s))
          (seq 0 k)).
Proof.
  intros O C G. cbv zeta.
  destruct (frame_begin_frame delta s) as (B1 & B2 & _).
  set (s3 := spawn_times k 0 draws (frame_begin delta s)).
  set (fresh := flat_map (fun j => map group_defaults
                                     (spawn_pair (draws j) s)) (seq 0 k)).
  assert (O3 : obstacles s3 = obstacles s ++ fresh).
  { unfold s3. rewrite spawn_times_obstacles, B2. f_equal.
    apply flat_map_ext. intro j. f_equal.
    apply spawn_pair_frame_begin. }
  destruct (fresh_pairs_column draws s (seq 0 k)) as (F1 & _ & F3 & F4).
  fold fresh in F1, F3, F4.
  assert (Ord3 : ordered (obstacles s3)).
  { rewrite O3. exact (ordered_app _ _ _ O F4 C F1). }
  assert (G3 : gameOverShown s3 = false).
  { pose proof (spawn_times_frame k 0 draws (frame_begin delta s)) as X.
    cbv zeta in X. destruct X as (X & _). rewrite B1 in X.
    unfold session_of in X. injection X as _ _ _ X _. rewrite <- G.
    exact X. }
  rewrite frame_end_unfold. cbv zeta.
  pose proof (sweep_ordered _ s3 Ord3) as SW.
  rewrite sweep_snd in SW. rewrite SW.
  rewrite O3, filter_app, (filter_all _ _ _ F3). rewrite <- O3.
  set (sn := Nat.iter (count_scoring (obstacles s3)) score_event s3).
  assert (Gn : gameOverShown sn = false).
  { pose proof (iter_score_event_fields
                  (count_scoring (obstacles s3)) s3) as X.
    cbv zeta in X. destruct X as (_ & _ & X & _). fold sn in X.
    rewrite X. exact G3. }
  destruct (Qlt_bool (player_y (player s3)) (-40)).
  - unfold onGameOver. cbn [gameOverShown set_obstacles]. rewrite Gn.
    cbn [gameOverShown obstacles set_obstacles]. rewrite map_map.
    reflexivity.
  - cbn [gameOverShown set_obstacles obstacles speed]. rewrite Gn.
    reflexivity.
Qed.

Lemma update_group (fuel : nat) (delta : Q) (draws : nat -> draw)
    (s s' : scene) :
  ordered (obstacles s) ->
  Forall (fun o => (ox o <= inject_Z (DESIGN_WIDTH + 24))%Q) (obstacles s) ->
  gameOverShown s = false ->
  update fuel delta draws s = Some s' ->
  exists k : nat,
    (k <= fuel)%nat /\
    obstacles s' =
    map (fun o => if gameOverShown s' then freeze o
                  else set_ovx o (- inject_Z (speed s')))
      (filter inside (obstacles s)
       ++ flat_map (fun j => map group_defaults (spawn_pair (draws j) s))
            (seq 0 k)).
Proof.
  intros O C G U.
  destruct (update_playing _ _ _ _ _ G U) as (k & K & -> & _).
  exists k. split; [exact K|].
  exact (frame_end_group k delta draws s O C G).
Qed.


(** ** Scroll order and velocity *)

Lemma advance_slides_left (dt v : Q) (o : obstacle) :
  (0 <= dt)%Q -> (v <= 0)%Q -> ovx o = v ->
  (ox (advance dt o) <= ox o)%Q.
Proof.
  intros D V E. cbn [advance ox]. rewrite E.
  assert (H : (v * dt / 1000 <= 0)%Q).
  { unfold Qdiv. setoid_replace (/ 1000)%Q with (1 # 1000)%Q by reflexivity.
    nra. }
  lra.
Qed.

Lemma scroll_velocity_le_0 (s : scene) :
  scene_inv s -> (scroll_velocity s <= 0)%Q.
Proof.
  intros [[R _] S _ _ _ _ _ _]. unfold scroll_velocity.
  destruct (gameOverShown s); [apply Qle_refl|].
  assert (H : 0 <= speed s) by lia.
  rewrite Zle_Qle in H. change (inject_Z 0) with 0%Q in H. lra.
Qed.

Lemma physics_scroll (dt : Q) (p : player_t) (s : scene) :
  (0 <= dt)%Q -> scene_inv s -> scroll_inv s ->
  scroll_inv (physics dt p s).
Proof.
  intros D I [O C U]. pose proof (scroll_velocity_le_0 s I) as V.
  constructor; cbn [physics obstacles set_obstacles set_player].
  - clear C. induction (obstacles s) as [|a l IH]; [exact Logic.I|].
    destruct O as [F O]. pose proof (Forall_inv U) as (Va & _).
    pose proof (Forall_inv_tail U) as Ut. cbn [map ordered].
    split; [|exact (IH O Ut)].
    apply Forall_forall. intros b In.
    apply in_map_iff in In. destruct In as (b0 & <- & In).
    rewrite Forall_forall in F, Ut.
    pose proof (F b0 In) as L. destruct (Ut b0 In) as (Vb & _).
    cbn [advance ox]. rewrite Va, Vb.
    apply Qplus_le_compat; [exact L|apply Qle_refl].
  - apply Forall_forall. intros b In.
    apply in_map_iff in In. destruct In as (b0 & <- & In).
    rewrite Forall_forall in C, U. destruct (U b0 In) as (Vb & _).
    pose proof (advance_slides_left dt _ b0 D V Vb) as L.
    pose proof (C b0 In) as Cb. lra.
  - apply Forall_forall. intros b In.
    apply in_map_iff in In. destruct In as (b0 & <- & In).
    rewrite Forall_forall in U. exact (U b0 In).
Qed.

Lemma onGameOver_scroll (s : scene) :
  scroll_inv s -> scroll_inv (onGameOver s).
Proof.
  intros [O C U]. unfold onGameOver.
  destruct (gameOverShown s) eqn:G.
  - constructor; assumption.
  - constructor; cbn [obstacles].
    + apply ordered_map; [reflexivity|exact O].
    + apply Forall_forall. intros b In.
      apply in_map_iff in In. destruct In as (b0 & <- & In).
      rewrite Forall_forall in C. exact (C b0 In).
    + apply Forall_forall. intros b In.
      apply in_map_iff in In. destruct In as (b0 & <- & In).
      rewrite Forall_forall in U. destruct (U b0 In) as (_ & _ & A).
      repeat split. exact A.
Qed.

Lemma update_scroll (fuel : nat) (delta : Q) (draws : nat -> draw)
    (s s' : scene) :
  scroll_inv s -> update fuel delta draws s = Some s' -> scroll_inv s'.
Proof.
  intros [O C U] H. destruct (gameOverShown s) eqn:G.
  - unfold update in H. rewrite G in H. injection H as <-.
    constructor; assumption.
  - destruct (update_group _ _ _ _ _ O C G H) as (k & _ & E).
    destruct (fresh_pairs_column draws s (seq 0 k)) as (F1 & F2 & _ & F4).
    set (fresh := flat_map (fun j => map group_defaults
                                       (spawn_pair (draws j) s))
                    (seq 0 k)) in *.
    assert (Cf : Forall (fun o => (ox o <= inject_Z (DESIGN_WIDTH + 24))%Q)
                   (filter inside (obstacles s) ++ fresh)).
    { apply Forall_app. split.
      - apply Forall_forall. intros o In. apply filter_In in In.
        rewrite Forall_forall in C. exact (C o (proj1 In)).
      - revert F1. apply Forall_impl. intros o ->. apply Qle_refl. }
    assert (Of : ordered (filter inside (obstacles s) ++ fresh)).
    { apply (ordered_app _ _ (inject_Z (DESIGN_WIDTH + 24)));
        [apply ordered_filter; exact O|exact F4| |exact F1].
      apply Forall_forall. intros o In. apply filter_In in In.
      rewrite Forall_forall in C. exact (C o (proj1 In)). }
    assert (Gf : Forall (fun o => ovy o = 0%Q /\ allowGravity o = true)
                   (filter inside (obstacles s) ++ fresh)).
    { apply Forall_app. split.
      - apply Forall_forall. intros o In. apply filter_In in In.
        rewrite Forall_forall in U. exact (proj2 (U o (proj1 In))).
      - revert F2. apply Forall_impl. intros o A. exact (proj2 A). }
    constructor; rewrite E.
    + apply ordered_map; [|exact Of].
      intro o. destruct (gameOverShown s'); reflexivity.
    + apply Forall_forall. intros b In.
      apply in_map_iff in In. destruct In as (b0 & <- & In).
      rewrite Forall_forall in Cf.
      destruct (gameOverShown s'); exact (Cf b0 In).
    + apply Forall_forall. intros b In.
      apply in_map_iff in In. destruct In as (b0 & <- & In).
      rewrite Forall_forall in Gf. destruct (Gf b0 In) as [Y A].
      unfold scroll_velocity.
      destruct (gameOverShown s'); repeat split; assumption.
Qed.

Lemma exec_scroll (ev : event) (s s' : scene) :
  scene_inv s -> scroll_inv s -> exec ev s = Some s' -> scroll_inv s'.
Proof.
  intros I J. destruct ev as [fuel delta draws| | o | |dt p| ]; simpl.
  - destruct (Qle_bool 0 delta); [|discriminate].
    apply update_scroll. exact J.
  - intro H. injection H as <-. unfold tryJump.
    destruct (gameOverShown s) eqn:G; [exact J|].
    destruct (_ || _); [|exact J].
    destruct J as [O C U]. constructor; assumption.
  - intro H. injection H as <-. destruct J as [O C U].
    destruct o as [|ok|ok [|[|p]]]; constructor; assumption.
  - intro H. injection H as <-. apply onGameOver_scroll. exact J.
  - destruct (Qle_bool 0 dt) eqn:D; [|discriminate].
    apply Qle_bool_iff in D.
    intro H. injection H as <-. apply physics_scroll; assumption.
  - destruct (gameOverShown s); [|discriminate].
    intro H. injection H as <-. repeat constructor.
Qed.

Lemma reachable_scroll (s : scene) : reachable s -> scroll_inv s.
Proof.
  intro R. induction R as [|ev s s' R IH E].
  - repeat constructor.
  - exact (exec_scroll ev s s' (reachable_inv s R) IH E).
Qed.



(** X3.  A frame of a running game removes from the group exactly the
    obstacles past the left threshold, keeps the others in their order,
    appends the pairs it spawns, which come with the defaults of the
    group on them, and gives every obstacle of the group the scroll
    velocity of the end of the frame; if the frame ends the game, every
    obstacle is brought to rest instead. *)
Theorem frame_group (fuel : nat) (delta : Q) (draws : nat -> draw)
    (s s' : scene) :
  reachable s -> gameOverShown s = false ->
  update fuel delta draws s = Some s' ->
  exists k : nat,
    (k <= fuel)%nat /\
    obstacles s' =
    map (fun o => if gameOverShown s' then freeze o
                  else set_ovx o (- inject_Z (speed s')))
      (filter inside (obstacles s)
       ++ flat_map (fun j => map group_defaults (spawn_pair (draws j) s))
            (seq 0 k)).
Proof.
  intros R G U. destruct (reachable_scroll s R) as [O C _].
  exact (update_group fuel delta draws s s' O C G U).
Qed.

Lemma frame_group_witness :
  let s := state_after first_exit in
  let s' := state_after seven_frames in
  obstacles s' =
  map (fun o => set_ovx o (-196)) (filter inside (obstacles s)).
Proof.
  cbv zeta.
  assert (R : reachable (state_after first_exit)).
  { apply (reachable_run first_exit init _ reach_init).
    vm_compute. reflexivity. }
  assert (G : gameOverShown (state_after first_exit) = false)
    by (vm_compute; reflexivity).
  assert (U : update 1 1000 sample_draws (state_after first_exit)
              = Some (state_after seven_frames))
    by (vm_compute; reflexivity).
  destruct (frame_group 1 1000 sample_draws _ _ R G U) as (k & K & E).
  rewrite E.
  assert (L : length (obstacles (state_after seven_frames)) = 8%nat)
    by (vm_compute; reflexivity).
  assert (L' : length (filter inside (obstacles (state_after first_exit)))
               = 8%nat) by (vm_compute; reflexivity).
  rewrite E, length_map, length_app, L', fresh_pairs_length, length_seq
    in L.
  assert (k = 0%nat) as -> by lia.
  cbn [seq flat_map]. rewrite app_nil_r.
  apply map_ext. intro o. vm_compute (gameOverShown _).
  vm_compute (speed _). reflexivity.
Defined.

(** ** Candle colours *)

Lemma pair_coloured_map (f : obstacle -> obstacle) (l : list obstacle) :
  (forall o, ocolor (f o) = ocolor o) ->
  pair_coloured l -> pair_coloured (map f l).
Proof.
  intro F.
  induction l as [|a|a b l IH] using pairs_ind; simpl; intro P.
  - exact I.
  - contradiction.
  - destruct P as (E & C & P). rewrite !F. repeat split; auto.
Qed.

Lemma pair_coloured_app (l1 l2 : list obstacle) :
  pair_coloured l1 -> pair_coloured l2 -> pair_coloured (l1 ++ l2).
Proof.
  induction l1 as [|a|a b l IH] using pairs_ind; simpl; intros P1 P2.
  - exact P2.
  - contradiction.
  - destruct P1 as (E & C & P1). repeat split; auto.
Qed.

Lemma pair_coloured_inside (l : list obstacle) :
  paired l -> pair_coloured l -> pair_coloured (filter inside l).
Proof.
  induction l as [|a|a b l IH] using pairs_ind; intros P C.
  - exact I.
  - contradiction.
  - destruct P as [(X & _) P]. destruct C as (E & B & C).
    assert (Eb : inside b = inside a)
      by (unfold inside, past_threshold; rewrite X; reflexivity).
    cbn [filter]. rewrite Eb. destruct (inside a).
    + cbn [pair_coloured]. repeat split; auto.
    + exact (IH P C).
Qed.

Lemma candle_colour_cases (t : Trend) (c : bool) :
  candle_colour t c = CANDLE_BULL \/ candle_colour t c = CANDLE_BEAR.
Proof. destruct t, c; simpl; auto. Qed.

Lemma fresh_pairs_coloured (draws : nat -> draw) (s : scene)
    (js : list nat) :
  let fresh :=
    flat_map (fun j => map group_defaults (spawn_pair (draws j) s)) js in
  pair_coloured fresh /\
  map ocolor fresh =
  flat_map (fun j => let c := candle_colour (priceTrend s) (coin (draws j))
                     in [c; c]) js.
Proof.
  cbv zeta. induction js as [|j js [I1 I2]]; cbn [flat_map].
  - split; [exact I|reflexivity].
  - destruct (spawn_pair_fields (draws j) s)
      as (t & b & -> & _ & _ & _ & Ct & Cb).
    cbn [app map pair_coloured]. rewrite Ct, Cb, I2.
    repeat split; [apply candle_colour_cases|exact I1].
Qed.

Lemma update_pair_coloured (fuel : nat) (delta : Q) (draws : nat -> draw)
    (s s' : scene) :
  reachable s -> pair_coloured (obstacles s) ->
  update fuel delta draws s = Some s' -> pair_coloured (obstacles s').
Proof.
  intros R C H. pose proof (inv_pairs s (reachable_inv s R)) as P.
  destruct (reachable_scroll s R) as [O Col _].
  destruct (gameOverShown s) eqn:G.
  - unfold update in H. rewrite G in H. injection H as <-. exact C.
  - destruct (update_group _ _ _ _ _ O Col G H) as (k & _ & ->).
    apply pair_coloured_map.
    + intro o. destruct (gameOverShown s'); reflexivity.
    + apply pair_coloured_app;
        [exact (pair_coloured_inside _ P C)
        |exact (proj1 (fresh_pairs_coloured draws s (seq 0 k)))].
Qed.

Lemma exec_pair_coloured (ev : event) (s s' : scene) :
  reachable s -> pair_coloured (obstacles s) -> exec ev s = Some s' ->
  pair_coloured (obstacles s').
Proof.
  intros R C.
  destruct ev as [fuel delta draws| | o | |dt p| ]; simpl.
  - destruct (Qle_bool 0 delta); [|discriminate].
    apply update_pair_coloured; assumption.
  - intro H. injection H as <-. unfold tryJump.
    destruct (gameOverShown s); [exact C|].
    destruct (_ || _); exact C.
  - intro H. injection H as <-.
    destruct o as [|ok|ok [|[|p]]]; exact C.
  - intro H. injection H as <-. unfold onGameOver.
    destruct (gameOverShown s); [exact C|]. cbn [obstacles].
    apply pair_coloured_map; [reflexivity|exact C].
  - destruct (Qle_bool 0 dt); [|discriminate].
    intro H. injection H as <-. cbn [physics obstacles set_obstacles].
    apply pair_coloured_map; [reflexivity|exact C].
  - destruct (gameOverShown s); [|discriminate].
    intro H. injection H as <-. exact I.
Qed.

Lemma reachable_pair_coloured (s : scene) :
  reachable s -> pair_coloured (obstacles s).
Proof.
  intro R. induction R as [|ev s s' R IH E].
  - exact I.
  - exact (exec_pair_coloured ev s s' R IH E).
Qed.

(** X4.  A candle gets its colour when it is spawned and keeps it: both
    candles of a pair are green under trend up, red under trend down and
    follow the coin under trend flat, whatever happens to the trend
    later.  So in every reachable state the two candles of each pair have
    the same colour, green or red, and a frame of a running game leaves
    the colours of the obstacles that stay as they are. *)
Theorem candle_colours (fuel : nat) (delta : Q) (draws : nat -> draw)
    (s s' : scene) :
  reachable s -> gameOverShown s = false ->
  update fuel delta draws s = Some s' ->
  pair_coloured (obstacles s) /\ pair_coloured (obstacles s') /\
  exists k : nat,
    map ocolor (obstacles s') =
    map ocolor (filter inside (obstacles s))
    ++ flat_map (fun j =>
                   let c := candle_colour (priceTrend s) (coin (draws j))
                   in [c; c]) (seq 0 k).
Proof.
  intros R G U.
  split; [exact (reachable_pair_coloured s R)|].
  split.
  { exact (update_pair_coloured fuel delta draws s s' R
             (reachable_pair_coloured s R) U). }
  destruct (reachable_scroll s R) as [O C _].
  destruct (update_group fuel delta draws s s' O C G U) as (k & _ & ->).
  exists k. rewrite map_map.
  rewrite <- (proj2 (fresh_pairs_coloured draws s (seq 0 k))).
  rewrite <- map_app.
  apply map_ext. intro o. destruct (gameOverShown s'); reflexivity.
Qed.

Lemma candle_colours_witness :
  let s := state_from [EvFetchDone (sample 60000); EvFetchDone (sample 59000)]
             (state_after two_pairs_on_screen) in
  let s' := state_from [EvUpdate 1 1000 sample_draws] s in
  priceTrend s = Down /\
  map ocolor (obstacles s')
  = [CANDLE_BULL; CANDLE_BULL; CANDLE_BULL; CANDLE_BULL;
     CANDLE_BEAR; CANDLE_BEAR].
Proof.
  cbv zeta.
  set (s := state_from [EvFetchDone (sample 60000);
                        EvFetchDone (sample 59000)]
              (state_after two_pairs_on_screen)).
  assert (R : reachable s).
  { apply (reachable_run
             (two_pairs_on_screen
              ++ [EvFetchDone (sample 60000); EvFetchDone (sample 59000)])
             init _ reach_init).
    vm_compute. reflexivity. }
  assert (G : gameOverShown s = false) by (vm_compute; reflexivity).
  assert (U : update 1 1000 sample_draws s
              = Some (state_from [EvUpdate 1 1000 sample_draws] s))
    by (vm_compute; reflexivity).
  destruct (candle_colours 1 1000 sample_draws s _ R G U) as (_ & _ & k & E).
  split; [vm_compute; reflexivity|].
  vm_compute. reflexivity.
Defined.

(** ** The fields a frame keeps *)

(** The parts of the scene a running frame passes through unchanged or
    changes in a fixed way: the display and the price accumulator come
    from [frame_begin], the player keeps its [y] and gets the clamped
    body, and the frame ends the game exactly when the player is above
    [y = -40]. *)
Lemma update_passes (fuel : nat) (delta : Q) (draws : nat -> draw)
    (s s' : scene) :
  gameOverShown s = false ->
  update fuel delta draws s = Some s' ->
  priceText s' = priceText s /\ background s' = background s /\
  priceAcc s' = priceAcc (price_tick delta s) /\
  player s' = mkPlayer (player_y (player s))
                (clamp_to_ground (player_body (player s))) /\
  gameOverShown s' = Qlt_bool (player_y (player s)) (-40).
Proof.
  intros G U.
  destruct (update_playing _ _ _ _ _ G U) as (k & _ & -> & _).
  pose proof (spawn_times_frame k 0 draws (frame_begin delta s)) as X.
  cbv zeta in X. destruct X as (X1 & _ & X3 & X4 & _ & X6 & X7).
  set (s3 := spawn_times k 0 draws (frame_begin delta s)) in *.
  pose proof (iter_score_event_fields (count_scoring (obstacles s3)) s3)
    as F.
  cbv zeta in F.
  destruct F as (_ & _ & F3 & _ & _ & F6 & _ & _ & F9 & F10 & F11).
  assert (B : priceText (frame_begin delta s) = priceText s /\
              background (frame_begin delta s) = background s /\
              priceAcc (frame_begin delta s) = priceAcc (price_tick delta s)
              /\ player (frame_begin delta s)
                 = mkPlayer (player_y (player s))
                     (clamp_to_ground (player_body (player s))) /\
              gameOverShown (frame_begin delta s) = gameOverShown s).
  { unfold frame_begin, price_tick.
    destruct (Qle_bool _ _); repeat split. }
  destruct B as (B1 & B2 & B3 & B4 & B5).
  assert (G3 : gameOverShown s3 = false).
  { unfold session_of in X1. injection X1 as _ _ _ X _.
    rewrite X, <- G. exact B5. }
  rewrite frame_end_unfold. cbv zeta.
  rewrite X3, B4. cbn [player_y].
  set (s4 := set_obstacles
               (Nat.iter (count_scoring (obstacles s3)) score_event s3)
               (fst (sweep (obstacles s3) s3))).
  assert (J : priceText s4 = priceText s /\ background s4 = background s /\
              priceAcc s4 = priceAcc (price_tick delta s) /\
              player s4 = mkPlayer (player_y (player s))
                            (clamp_to_ground (player_body (player s))) /\
              gameOverShown s4 = false).
  { unfold s4.
    cbn [set_obstacles priceText background priceAcc player gameOverShown].
    rewrite F10, F11, F9, F6, F3, X6, X7, X4, X3, B1, B2, B3, B4, G3.
    repeat split. }
  destruct J as (J1 & J2 & J3 & J4 & J5).
  destruct (Qlt_bool (player_y (player s)) (-40)).
  - unfold onGameOver. rewrite J5.
    cbn [priceText background priceAcc player gameOverShown].
    repeat split; assumption.
  - repeat split; assumption.
Qed.

(** ** The display *)

Lemma store_price_display (p : Q) (s : scene) :
  display_inv (store_price p s).
Proof.
  unfold display_inv, store_price. cbn [background priceTrend priceText
                                        curPrice].
  destruct (detect_trend _ p); repeat split; auto;
    try discriminate; intros q E; injection E as <-; reflexivity.
Qed.

Lemma exec_display (ev : event) (s s' : scene) :
  display_inv s -> exec ev s = Some s' -> display_inv s'.
Proof.
  intros (D1 & D2 & D3).
  destruct ev as [fuel delta draws| | o | |dt p| ]; simpl.
  - destruct (Qle_bool 0 delta); [|discriminate]. intro H.
    pose proof (update_prices _ _ _ _ _ H) as P.
    unfold prices_of in P. injection P as _ P2 P3.
    destruct (gameOverShown s) eqn:G.
    + unfold update in H. rewrite G in H. injection H as <-.
      repeat split; assumption.
    + destruct (update_passes _ _ _ _ _ G H) as (T & B & _).
      unfold display_inv. rewrite T, B, P2, P3. repeat split; assumption.
  - intro H. injection H as <-. unfold tryJump.
    destruct (gameOverShown s); [repeat split; assumption|].
    destruct (_ || _); repeat split; assumption.
  - intro H. injection H as <-.
    destruct o as [|ok|ok [|[|p]]]; simpl;
      try (repeat split; [assumption|assumption|discriminate]).
    + repeat split; assumption.
    + apply store_price_display.
  - intro H. injection H as <-. unfold onGameOver.
    destruct (gameOverShown s); repeat split; assumption.
  - destruct (Qle_bool 0 dt); [|discriminate].
    intro H. injection H as <-. repeat split; assumption.
  - destruct (gameOverShown s); [|discriminate].
    intro H. injection H as <-.
    repeat split; [right; reflexivity|discriminate|discriminate].
Qed.

(** X5.  In every reachable state the background is one of the two
    background colours and is the bullish one only while the trend is
    up, and a price shown in the price text is the stored current
    price. *)
Theorem display_consistent (s : scene) :
  reachable s ->
  (background s = BG_BULL \/ background s = BG_BEAR) /\
  (background s = BG_BULL -> priceTrend s = Up) /\
  (forall p, priceText s = TextPrice p -> curPrice s = Some p).
Proof.
  revert s. apply invariant_reachable.
  - repeat split; [right; reflexivity|discriminate|discriminate].
  - exact exec_display.
Qed.

(** After a restart the trend of the last session is still up while the
    background is back to bearish. *)
Lemma display_consistent_witness :
  let s := state_after [EvFetchDone (sample 60000);
                        EvFetchDone (sample 60500)] in
  let s' := state_from [EvOverlap; EvRestart] s in
  (background s = BG_BULL /\ priceTrend s = Up /\
   curPrice s = Some 60500%Q) /\
  (background s' = BG_BEAR /\ priceTrend s' = Up).
Proof.
  cbv zeta.
  set (s := state_after [EvFetchDone (sample 60000);
                         EvFetchDone (sample 60500)]).
  assert (R : reachable s).
  { apply (reachable_run [EvFetchDone (sample 60000);
                          EvFetchDone (sample 60500)] init _ reach_init).
    reflexivity. }
  destruct (display_consistent s R) as (_ & D2 & D3).
  split.
  - split; [reflexivity|]. split; [apply D2; reflexivity|].
    apply D3. reflexivity.
  - split; reflexivity.
Defined.

(** ** The price poll accumulator *)

Lemma price_tick_cases (delta : Q) (s : scene) :
  (0 <= priceAcc s)%Q -> (0 <= delta)%Q ->
  let a := fl (priceAcc s + delta) in
  if Qle_bool (inject_Z PRICE_INTERVAL_MS) a
  then priceAcc (price_tick delta s) = 0%Q
  else priceAcc (price_tick delta s) = a /\ (0 <= a /\ a < 5000)%Q.
Proof.
  intros A D. cbv zeta. unfold price_tick.
  destruct (Qle_bool (inject_Z PRICE_INTERVAL_MS) (fl (priceAcc s + delta)))
    eqn:E; cbn [priceAcc set_priceAcc]; [reflexivity|].
  split; [reflexivity|]. apply Qle_bool_false in E.
  change (inject_Z PRICE_INTERVAL_MS) with 5000%Q in E.
  split; [apply fl_nonneg; lra|exact E].
Qed.

Lemma exec_priceAcc (ev : event) (s s' : scene) :
  (0 <= priceAcc s <= 5000)%Q -> exec ev s = Some s' ->
  (0 <= priceAcc s' <= 5000)%Q.
Proof.
  intros [A0 A1].
  destruct ev as [fuel delta draws| | o | |dt p| ]; cbn [exec].
  - destruct (Qle_bool 0 delta) eqn:D; [|discriminate].
    apply Qle_bool_iff in D. intro H.
    destruct (gameOverShown s) eqn:G.
    + unfold update in H. rewrite G in H. injection H as <-.
      split; assumption.
    + destruct (update_passes _ _ _ _ _ G H) as (_ & _ & -> & _).
      pose proof (price_tick_cases delta s A0 D) as P. cbv zeta in P.
      destruct (Qle_bool _ _).
      * rewrite P. split; discriminate.
      * destruct P as (-> & P0 & P1). split; lra.
  - intro H. injection H as <-.
    assert (E : priceAcc (tryJump s) = priceAcc s).
    { unfold tryJump. destruct (gameOverShown s); [reflexivity|].
      destruct (_ || _); reflexivity. }
    rewrite E. split; assumption.
  - intro H. injection H as <-.
    assert (E : priceAcc (fetchPriceOnce o s) = priceAcc s)
      by (destruct o as [|ok|ok [|[|p]]]; reflexivity).
    rewrite E. split; assumption.
  - intro H. injection H as <-.
    assert (E : priceAcc (onGameOver s) = priceAcc s)
      by (unfold onGameOver; destruct (gameOverShown s); reflexivity).
    rewrite E. split; assumption.
  - destruct (Qle_bool 0 dt); [|discriminate].
    intro H. injection H as <-. split; assumption.
  - destruct (gameOverShown s); [|discriminate].
    intro H. injection H as <-. split; discriminate.
Qed.

Lemma reachable_priceAcc (s : scene) :
  reachable s -> (0 <= priceAcc s <= 5000)%Q.
Proof.
  revert s. apply invariant_reachable.
  - split; discriminate.
  - intros ev s s' A E. exact (exec_priceAcc ev s s' A E).
Qed.

(** X6.  The price poll accumulator stays between 0 and 5000.  An update
    of a finished game fires no request and leaves the accumulator.  An
    update of a running game either fires and leaves the accumulator at
    0, or leaves it at the double sum of accumulator and [delta], which
    is then below 5000.  A request is never late: it is fired whenever
    the sum of the two numbers has reached 5000; and it is not fired
    while that sum is at most 4999.  The first update after [create]
    always fires. *)
Theorem poll_accumulator (fuel : nat) (delta : Q) (draws : nat -> draw)
    (s s' : scene) :
  reachable s -> (0 <= delta)%Q ->
  update fuel delta draws s = Some s' ->
  (0 <= priceAcc s <= 5000)%Q /\
  (gameOverShown s = true ->
   fetch_fired delta s = false /\ priceAcc s' = priceAcc s) /\
  (gameOverShown s = false ->
   (if fetch_fired delta s then priceAcc s' = 0%Q
    else priceAcc s' = fl (priceAcc s + delta) /\ (priceAcc s' < 5000)%Q) /\
   ((5000 <= priceAcc s + delta)%Q -> fetch_fired delta s = true) /\
   ((priceAcc s + delta <= 4999)%Q -> fetch_fired delta s = false)) /\
  (forall s0, fetch_fired delta (create s0) = true).
Proof.
  intros R D H. pose proof (reachable_priceAcc s R) as A.
  split; [exact A|]. split; [|split].
  - intro G. unfold fetch_fired. rewrite G. split; [reflexivity|].
    unfold update in H. rewrite G in H. injection H as <-. reflexivity.
  - intro G. unfold fetch_fired. rewrite G. cbn [negb andb].
    destruct (update_passes _ _ _ _ _ G H) as (_ & _ & -> & _).
    pose proof (price_tick_cases delta s (proj1 A) D) as P. cbv zeta in P.
    split; [|split].
    + destruct (Qle_bool _ _); [exact P|].
      destruct P as (P & _ & P1). split; [exact P|]. rewrite P. exact P1.
    + intro L. apply Qle_bool_iff.
      apply (fl_ge_int _ 5000); [split; [discriminate|discriminate]|].
      exact L.
    + intro L. apply Qle_bool_false.
      apply Qle_lt_trans with (inject_Z 4999); [|reflexivity].
      apply fl_le_int; [lra|exact L|reflexivity].
  - intro s0. unfold fetch_fired. cbn [create gameOverShown priceAcc
                                        negb andb].
    apply Qle_bool_iff.
    apply (fl_ge_int _ 5000); [split; [discriminate|discriminate]|].
    change (inject_Z PRICE_INTERVAL_MS) with 5000%Q.
    change (inject_Z 5000) with 5000%Q. lra.
Qed.

(** After six frames of one second the accumulator stands at 0, the
    request having fired on the sixth; the seventh frame adds its
    second and fires nothing. *)
Lemma poll_accumulator_witness :
  fetch_fired 1000 (state_after first_exit) = false /\
  priceAcc (state_after seven_frames) = 1000%Q.
Proof.
  assert (R : reachable (state_after first_exit)).
  { apply (reachable_run first_exit init _ reach_init).
    vm_compute. reflexivity. }
  assert (D : (0 <= 1000)%Q) by discriminate.
  assert (U : update 1 1000 sample_draws (state_after first_exit)
              = Some (state_after seven_frames))
    by (vm_compute; reflexivity).
  assert (G : gameOverShown (state_after first_exit) = false)
    by (vm_compute; reflexivity).
  destruct (poll_accumulator 1 1000 sample_draws _ _ R D U)
    as (_ & _ & P & _).
  destruct (P G) as (P1 & _ & P3).
  assert (F : fetch_fired 1000 (state_after first_exit) = false).
  { apply P3. vm_compute. discriminate. }
  rewrite F in P1. split; [exact F|].
  rewrite (proj1 P1). vm_compute. reflexivity.
Defined.

(** ** The score over a session *)

Lemma run_score (evs : list event) : forall s s',
  forallb (fun ev => negb (is_restart ev)) evs = true ->
  run evs s = Some s' -> score s <= score s'.
Proof.
  induction evs as [|ev evs IH]; intros s s' N H.
  - injection H as <-. lia.
  - cbn [run] in H. destruct (exec ev s) as [s1|] eqn:E; [|discriminate].
    cbn [forallb] in N. apply andb_true_iff in N. destruct N as [N1 N2].
    apply negb_true_iff in N1.
    pose proof (exec_score ev s s1 N1 E). pose proof (IH s1 s' N2 H). lia.
Qed.

(** X7.  Within a session the score never decreases, whatever callbacks
    arrive; it is never negative, the score text always shows it, and a
    restart puts it back to 0. *)
Theorem score_monotone (s : scene) (evs : list event) (s' : scene) :
  reachable s ->
  forallb (fun ev => negb (is_restart ev)) evs = true ->
  run evs s = Some s' ->
  0 <= score s /\ score s <= score s' /\
  scoreText s = score s /\ scoreText s' = score s' /\
  (forall s1, exec EvRestart s' = Some s1 -> score s1 = 0).
Proof.
  intros R N H.
  pose proof (reachable_inv s R) as I.
  pose proof (reachable_inv s' (reachable_run evs s s' R H)) as I'.
  split; [exact (inv_score s I)|]. split; [exact (run_score evs s s' N H)|].
  split; [exact (inv_text s I)|]. split; [exact (inv_text s' I')|].
  intros s1. cbn [exec]. destruct (gameOverShown s'); [|discriminate].
  intro E. injection E as <-. reflexivity.
Qed.

Lemma score_monotone_witness :
  score (state_after first_exit) <= score (state_after seven_frames) /\
  scoreText (state_after seven_frames) = 2.
Proof.
  assert (R : reachable (state_after first_exit)).
  { apply (reachable_run first_exit init _ reach_init).
    vm_compute. reflexivity. }
  assert (H : run [seventh_update] (state_after first_exit)
              = Some (state_after seven_frames))
    by (vm_compute; reflexivity).
  destruct (score_monotone _ [seventh_update] _ R eq_refl H)
    as (_ & M & _ & T & _).
  split; [exact M|]. rewrite T. vm_compute. reflexivity.
Defined.

(** ** Leaving through the top *)

(** X8.  A frame of a running game ends the game exactly when the
    player's centre is above [y = -40] at the time of the update; the
    obstacles that crossed the threshold in that frame are scored first,
    so the overlay shows the score including them. *)
Theorem top_exit (fuel : nat) (delta : Q) (draws : nat -> draw)
    (s s' : scene) :
  reachable s -> gameOverShown s = false -> (0 <= delta)%Q ->
  update fuel delta draws s = Some s' ->
  gameOverShown s' = Qlt_bool (player_y (player s)) (-40) /\
  player_y (player s') = player_y (player s) /\
  score s' = score s
             + Z.of_nat (length (filter past_threshold (obstacles s))) /\
  overlay s' = (if Qlt_bool (player_y (player s)) (-40)
                then [GameOverText (score s'); RestartPrompt; RestartBlocker]
                else []).
Proof.
  intros R G D U.
  destruct (update_passes _ _ _ _ _ G U) as (_ & _ & _ & P & F).
  split; [exact F|]. split; [rewrite P; reflexivity|].
  pose proof (reachable_inv s R) as I.
  pose proof (update_inv _ _ _ _ _ D I U) as I'.
  split.
  - pose proof (inv_pairs s I) as Pa.
    destruct (update_playing _ _ _ _ _ G U) as (k & _ & E & _).
    destruct (frame_begin_frame delta s) as (B1 & B2 & _).
    set (s3 := spawn_times k 0 draws (frame_begin delta s)) in *.
    assert (O3 : obstacles s3
                 = obstacles s
                   ++ flat_map (fun j => map group_defaults
                                             (spawn_pair (draws j)
                                                (frame_begin delta s)))
                        (seq 0 k)).
    { unfold s3. rewrite spawn_times_obstacles, B2. reflexivity. }
    assert (S3 : score s3 = score s).
    { pose proof (spawn_times_frame k 0 draws (frame_begin delta s)) as X.
      cbv zeta in X. destruct X as (X & _). rewrite B1 in X.
      unfold session_of in X. injection X as X _ _ _ _. exact X. }
    assert (N : count_scoring (obstacles s3)
                = length (filter past_threshold (obstacles s))).
    { pose proof (fresh_pairs_paired draws (frame_begin delta s) (seq 0 k))
        as Pf.
      assert (P3 : paired (obstacles s3))
        by (rewrite O3; apply paired_app; assumption).
      rewrite (proj1 (proj2 (sweep_paired _ P3 s3))).
      rewrite O3, exited_pairs_app, fresh_pairs_inside, Nat.add_0_r
        by exact Pa.
      rewrite <- (proj1 (proj2 (sweep_paired _ Pa s))).
      apply count_scoring_unflagged. apply paired_candles. exact Pa. }
    rewrite E, frame_end_unfold. cbv zeta.
    pose proof (iter_score_event_fields (count_scoring (obstacles s3)) s3)
      as X.
    cbv zeta in X. destruct X as (X & _).
    destruct (Qlt_bool (player_y (player s3)) (-40));
      [rewrite (proj1 (onGameOver_frame _))|];
      cbn [score set_obstacles]; rewrite X, S3, N; reflexivity.
  - rewrite <- F. exact (inv_overlay s' I').
Qed.

(** The seventh frame of [seven_frames] with the player thrown above
    the viewport, as the engine may report it: the first pair is scored
    and the game ends in the same update. *)
Lemma top_exit_witness :
  let high := mkPlayer (-50) (mkBody (-68) 36 (-300) false false) in
  let s := state_after (concat (repeat (frame 1000) 6)
                        ++ [EvPhysics 1000 high]) in
  let s' := state_from [seventh_update] s in
  gameOverShown s' = true /\
  overlay s' = [GameOverText 2; RestartPrompt; RestartBlocker].
Proof.
  cbv zeta.
  set (high := mkPlayer (-50) (mkBody (-68) 36 (-300) false false)).
  set (s := state_after (concat (repeat (frame 1000) 6)
                         ++ [EvPhysics 1000 high])).
  assert (R : reachable s).
  { apply (reachable_run (concat (repeat (frame 1000) 6)
                          ++ [EvPhysics 1000 high]) init _ reach_init).
    vm_compute. reflexivity. }
  assert (G : gameOverShown s = false) by (vm_compute; reflexivity).
  assert (D : (0 <= 1000)%Q) by discriminate.
  assert (U : update 1 1000 sample_draws s
              = Some (state_from [seventh_update] s))
    by (vm_compute; reflexivity).
  destruct (top_exit 1 1000 sample_draws s _ R G D U) as (F & _ & S & O).
  split; [rewrite F; vm_compute; reflexivity|].
  rewrite O.
  assert (Sc : score (state_from [seventh_update] s) = 2)
    by (vm_compute; reflexivity).
  rewrite Sc. vm_compute (Qlt_bool _ _). reflexivity.
Defined.

(** ** A jump and the next frame *)

(** X9.  A jump taken on the ground survives the next frame with its
    velocity of -630 only if the player's body does not reach below the
    ground line; if it does, the ground clamp of that frame sets the
    vertical velocity to 0 and the jump is lost. *)
Theorem jump_through_frame (fuel : nat) (delta : Q) (draws : nat -> draw)
    (s s' : scene) :
  gameOverShown s = false -> on_ground s = true ->
  update fuel delta draws (tryJump s) = Some s' ->
  let b := player_body (player s) in
  ((body_y b + body_height b <= inject_Z groundY)%Q ->
   velocity_y (player_body (player s')) = (-630)%Q /\
   body_y (player_body (player s')) = body_y b) /\
  ((inject_Z groundY < body_y b + body_height b)%Q ->
   velocity_y (player_body (player s')) = 0%Q /\
   body_y (player_body (player s')) = (inject_Z groundY - body_height b)%Q).
Proof.
  intros G C U. cbv zeta.
  assert (J : tryJump s =
              set_player s
                (mkPlayer (player_y (player s))
                   (set_velocity_y (player_body (player s))
                      (inject_Z jumpVelocity)))).
  { unfold tryJump. unfold on_ground in C. rewrite G, C. reflexivity. }
  rewrite J in U.
  assert (G' : gameOverShown
                 (set_player s
                    (mkPlayer (player_y (player s))
                       (set_velocity_y (player_body (player s))
                          (inject_Z jumpVelocity)))) = false) by exact G.
  destruct (update_passes _ _ _ _ _ G' U) as (_ & _ & _ & -> & _).
  cbn [player set_player player_y player_body].
  unfold clamp_to_ground.
  cbn [set_velocity_y body_y body_height velocity_y].
  split; intro H.
  - apply Qlt_bool_false in H. rewrite H. split; reflexivity.
  - apply Qlt_bool_true in H. rewrite H. split; reflexivity.
Qed.

Lemma jump_through_frame_witness :
  let sunk := mkPlayer (inject_Z groundY - 12)
                (mkBody (inject_Z groundY - 30) 36 0 true false) in
  let s1 := physics 16 standing_player init in
  let s2 := physics 16 sunk init in
  velocity_y (player_body
                (player (state_from [EvJump; EvUpdate 1 16 sample_draws] s1)))
  = (-630)%Q /\
  velocity_y (player_body
                (player (state_from [EvJump; EvUpdate 1 16 sample_draws] s2)))
  = 0%Q.
Proof.
  cbv zeta. split.
  - assert (U : update 1 16 sample_draws
                  (tryJump (physics 16 standing_player init))
                = Some (state_from [EvJump; EvUpdate 1 16 sample_draws]
                          (physics 16 standing_player init)))
      by (vm_compute; reflexivity).
    apply (jump_through_frame 1 16 sample_draws
             (physics 16 standing_player init) _ eq_refl eq_refl U).
    vm_compute. discriminate.
  - set (sunk := mkPlayer (inject_Z groundY - 12)
                   (mkBody (inject_Z groundY - 30) 36 0 true false)).
    assert (U : update 1 16 sample_draws (tryJump (physics 16 sunk init))
                = Some (state_from [EvJump; EvUpdate 1 16 sample_draws]
                          (physics 16 sunk init)))
      by (vm_compute; reflexivity).
    apply (jump_through_frame 1 16 sample_draws (physics 16 sunk init) _
             eq_refl eq_refl U).
    vm_compute. reflexivity.
Defined.

(** ** How many pairs a frame can spawn *)





(** ** Price state across sessions *)

Lemma poll_two (ps : list Q) (a b : Q) (s : scene) :
  prices_of (poll (ps ++ [a; b]) s)
  = (Some a, Some b, detect_trend (Some a) b).
Proof.
  change [a; b] with ([a] ++ [b]). rewrite app_assoc, poll_app.
  pose proof (poll_last_current ps a s) as C.
  unfold poll at 1. cbn [fold_left sample fetchPriceOnce].
  unfold prices_of, store_price. cbn [lastPrice curPrice priceTrend].
  rewrite C. reflexivity.
Qed.

(** X11.  The price state remembers exactly two samples: after two parsed
    prices [a], [b] last price, current price and trend are those of
    [a] and [b], whatever came before.  A restart does not clear it, so
    the first sample of a new session is compared with the last price of
    the previous one and need not give trend flat. *)
Theorem price_memory (s : scene) (ps : list Q) (a b c p : Q) :
  curPrice s = Some c ->
  prices_of (poll (ps ++ [a; b]) s)
  = (Some a, Some b, detect_trend (Some a) b) /\
  prices_of (create s) = prices_of s /\
  prices_of (fetchPriceOnce (sample p) (create s))
  = (Some c, Some p, detect_trend (Some c) p).
Proof.
  intro C. split; [apply poll_two|]. split; [reflexivity|].
  unfold prices_of. cbn [sample fetchPriceOnce store_price create
                         lastPrice curPrice priceTrend].
  rewrite C. reflexivity.
Qed.

Lemma price_memory_witness :
  let s := state_after [EvFetchDone (sample 60000); EvOverlap] in
  priceTrend (fetchPriceOnce (sample 60500) (create s)) = Up.
Proof.
  cbv zeta.
  set (s := state_after [EvFetchDone (sample 60000); EvOverlap]).
  assert (C : curPrice s = Some 60000%Q) by reflexivity.
  destruct (price_memory s [] 1 2 60000 60500 C) as (_ & _ & E).
  change (priceTrend (fetchPriceOnce (sample 60500) (create s)))
    with (snd (prices_of (fetchPriceOnce (sample 60500) (create s)))).
  rewrite E. reflexivity.
Defined.

(** ** The poller and the game loop *)

(** X12.  The completion of a request and the frame update write
    disjoint parts of the scene: a completion, whatever its outcome,
    leaves score, score text, difficulty, accumulators, game-over flag,
    overlay, obstacles and player as they are; an update leaves last
    price, current price, trend, price text and background as they
    are. *)
Theorem poller_and_loop_disjoint (fuel : nat) (delta : Q)
    (draws : nat -> draw) (o : fetch_outcome) (s s' : scene) :
  update fuel delta draws s = Some s' ->
  (gameplay_of (fetchPriceOnce o s) = gameplay_of s /\
   obstacles (fetchPriceOnce o s) = obstacles s /\
   player (fetchPriceOnce o s) = player s) /\
  (prices_of s' = prices_of s /\ priceText s' = priceText s /\
   background s' = background s).
Proof.
  intro U. split.
  - destruct o as [|ok|ok [|[|p]]]; repeat split.
  - split; [exact (update_prices _ _ _ _ _ U)|].
    destruct (gameOverShown s) eqn:G.
    + unfold update in U. rewrite G in U. injection U as <-.
      split; reflexivity.
    + destruct (update_passes _ _ _ _ _ G U) as (T & B & _).
      split; assumption.
Qed.

Lemma poller_and_loop_disjoint_witness :
  let s := state_after [EvFetchDone (sample 60000);
                        EvFetchDone (sample 60500)] in
  let s' := state_from [EvUpdate 2 2500 sample_draws] s in
  priceTrend s' = Up /\ background s' = BG_BULL /\
  length (obstacles s') = 4%nat.
Proof.
  cbv zeta.
  set (s := state_after [EvFetchDone (sample 60000);
                         EvFetchDone (sample 60500)]).
  assert (U : update 2 2500 sample_draws s
              = Some (state_from [EvUpdate 2 2500 sample_draws] s))
    by (vm_compute; reflexivity).
  destruct (poller_and_loop_disjoint 2 2500 sample_draws FetchRejected s _ U)
    as (_ & P & _ & B).
  change (priceTrend (state_from [EvUpdate 2 2500 sample_draws] s))
    with (snd (prices_of (state_from [EvUpdate 2 2500 sample_draws] s))).
  rewrite P, B. split; [reflexivity|]. split; [reflexivity|].
  vm_compute. reflexivity.
Defined.
